(** * Sparse matrices of [hw02/matrix.py]

    A shallow embedding of the class [SparseMatrix] (parsing, element access,
    addition, subtraction, multiplication and serialisation) together with
    the properties of its specification.

    Modelling choices.
    - Python integers are [Z].  The interpreter's configurable limit on the
      number of digits converted between [int] and [str] is not modelled.
    - A text is a [list ascii]; a character is read as a code point in
      0..255.  The character classes (white space, decimal digit) are
      Python's classes restricted to that range.
    - The dictionary [elements] is a finite map [gmap (Z * Z) Z].  Loops over
      its keys run over [map_to_list]/[elements]; the results of the methods
      are shown not to depend on that order.
    - Objects live in a heap of matrices indexed by locations; a method is a
      function from worlds to an outcome and a world, so that a raised
      exception keeps the mutations made before it. *)

From Stdlib Require Import ZArith Ascii String DecimalZ DecimalPos.
From stdpp Require Import gmap strings list fin_maps.

Open Scope Z_scope.

(** ** Python text primitives *)

Module Py.

Abbreviation text := (list ascii).

Definition chars (s : string) : text := list_ascii_of_string s.

Definition LF : ascii := "010"%char.
Definition CR : ascii := "013"%char.

(** [str.isspace] on the code points 0..255: TAB, LF, VT, FF, CR, the four
    separators FS, GS, RS, US, the space, NEL and the no-break space.  The
    class is used by [str.strip] and by the pattern [\s]. *)
Definition is_space (c : ascii) : bool :=
  let n := N_of_ascii c in
  ((9 <=? n) && (n <=? 13) || (28 <=? n) && (n <=? 32)
   || (n =? 133) || (n =? 160))%N.

(** The white space that [int] skips around a literal.  The conversion
    keeps the code points below 127 as they are and skips the six ASCII
    blanks TAB, LF, VT, FF, CR and the space; above, every white space
    character counts as a space.  The separators FS, GS, RS, US are white
    space for [str.strip] and [\s], but not for [int]. *)
Definition is_int_space (c : ascii) : bool :=
  let n := N_of_ascii c in
  ((9 <=? n) && (n <=? 13) || (n =? 32) || (n =? 133) || (n =? 160))%N.

(** The pattern [\d] and the digits accepted by [int]: in 0..255 the decimal
    digits are exactly the ten ASCII digits. *)
Definition is_digit (c : ascii) : bool :=
  let n := N_of_ascii c in ((48 <=? n) && (n <=? 57))%N.

Definition digit_of (c : ascii) : option (Decimal.uint → Decimal.uint) :=
  match c with
  | "0"%char => Some Decimal.D0
  | "1"%char => Some Decimal.D1
  | "2"%char => Some Decimal.D2
  | "3"%char => Some Decimal.D3
  | "4"%char => Some Decimal.D4
  | "5"%char => Some Decimal.D5
  | "6"%char => Some Decimal.D6
  | "7"%char => Some Decimal.D7
  | "8"%char => Some Decimal.D8
  | "9"%char => Some Decimal.D9
  | _ => None
  end.

Fixpoint uint_of_digits (s : text) : option Decimal.uint :=
  match s with
  | [] => Some Decimal.Nil
  | c :: r =>
      match digit_of c, uint_of_digits r with
      | Some d, Some u => Some (d u)
      | _, _ => None
      end
  end.

Fixpoint digits_of_uint (u : Decimal.uint) : text :=
  match u with
  | Decimal.Nil => []
  | Decimal.D0 u => "0"%char :: digits_of_uint u
  | Decimal.D1 u => "1"%char :: digits_of_uint u
  | Decimal.D2 u => "2"%char :: digits_of_uint u
  | Decimal.D3 u => "3"%char :: digits_of_uint u
  | Decimal.D4 u => "4"%char :: digits_of_uint u
  | Decimal.D5 u => "5"%char :: digits_of_uint u
  | Decimal.D6 u => "6"%char :: digits_of_uint u
  | Decimal.D7 u => "7"%char :: digits_of_uint u
  | Decimal.D8 u => "8"%char :: digits_of_uint u
  | Decimal.D9 u => "9"%char :: digits_of_uint u
  end.

(** [str(z)] and the replacement field [{z}] of an f-string. *)
Definition str (z : Z) : text :=
  match Z.to_int z with
  | Decimal.Pos u => digits_of_uint u
  | Decimal.Neg u => "-"%char :: digits_of_uint u
  end.

Fixpoint take_while (p : ascii → bool) (s : text) : text :=
  match s with
  | [] => []
  | c :: r => if p c then c :: take_while p r else []
  end.

Fixpoint drop_while (p : ascii → bool) (s : text) : text :=
  match s with
  | [] => []
  | c :: r => if p c then drop_while p r else s
  end.

(** [s] without the characters of the class [p] at its two ends. *)
Definition strip_by (p : ascii → bool) (s : text) : text :=
  rev (drop_while p (rev (drop_while p s))).

(** [s.strip()] *)
Definition strip (s : text) : text := strip_by is_space s.

(** [s.split(sep)] for a one-character separator: never an empty list. *)
Fixpoint split (sep : ascii) (s : text) : list text :=
  match s with
  | [] => [[]]
  | c :: r =>
      if Ascii.eqb c sep then [] :: split sep r
      else match split sep r with
           | f :: fs => (c :: f) :: fs
           | [] => [[c]]
           end
  end.

(** Text-mode reading translates CR LF and a lone CR to LF. *)
Fixpoint universal_newlines (s : text) : text :=
  match s with
  | [] => []
  | c :: r =>
      if Ascii.eqb c CR then
        match r with
        | c' :: r' =>
            if Ascii.eqb c' LF then LF :: universal_newlines r'
            else LF :: universal_newlines r
        | [] => [LF]
        end
      else c :: universal_newlines r
  end.

(** Lines of a text, each keeping its terminating LF. *)
Fixpoint keep_lines (s : text) : list text :=
  match s with
  | [] => []
  | c :: r =>
      if Ascii.eqb c LF then [c] :: keep_lines r
      else match keep_lines r with
           | l :: ls => (c :: l) :: ls
           | [] => [[c]]
           end
  end.

(** [file.readlines()] on a file opened with [open(path, 'r')]. *)
Definition readlines (s : text) : list text :=
  keep_lines (universal_newlines s).

(** The digits of an [int] literal: digits, with single underscores allowed
    between two digits.  [after_digit] records that the previous character
    was a digit. *)
Fixpoint int_digits (after_digit : bool) (s : text) : option text :=
  match s with
  | [] => if after_digit then Some [] else None
  | c :: r =>
      if is_digit c then
        match int_digits true r with
        | Some ds => Some (c :: ds)
        | None => None
        end
      else if Ascii.eqb c "_"%char then
        if after_digit then int_digits false r else None
      else None
  end.

(** [int(s)] for a string [s]: [None] stands for the raised [ValueError]. *)
Definition int (s : text) : option Z :=
  let s := strip_by is_int_space s in
  let '(negative, body) :=
    match s with
    | c :: r =>
        if Ascii.eqb c "-"%char then (true, r)
        else if Ascii.eqb c "+"%char then (false, r)
        else (false, s)
    | [] => (false, s)
    end in
  match int_digits false body with
  | Some ds =>
      match uint_of_digits ds with
      | Some u => Some (if negative then - Z.of_uint u else Z.of_uint u)
      | None => None
      end
  | None => None
  end.

(** [re.match(r'\((\d+),\s*(\d+),\s*(-?\d+)\)', line)]: the three groups,
    or [None].  The match is anchored at the start of the line only.  Every
    repetition of the pattern is followed by a character outside its class,
    so the backtracking search succeeds exactly when the longest-match scan
    below does, and with the same groups ([re_match_triple_complete] and
    [re_match_triple_sound] relate the scan to the shape of the line). *)
Definition re_match_triple (line : text) : option (text * text * text) :=
  match line with
  | c0 :: s1 =>
      if negb (Ascii.eqb c0 "("%char) then None else
      let g1 := take_while is_digit s1 in
      match g1, drop_while is_digit s1 with
      | _ :: _, c1 :: s2 =>
          if negb (Ascii.eqb c1 ","%char) then None else
          let s3 := drop_while is_space s2 in
          let g2 := take_while is_digit s3 in
          match g2, drop_while is_digit s3 with
          | _ :: _, c2 :: s4 =>
              if negb (Ascii.eqb c2 ","%char) then None else
              let s5 := drop_while is_space s4 in
              let '(sign, s6) :=
                match s5 with
                | c :: r => if Ascii.eqb c "-"%char then ([c], r) else ([], s5)
                | [] => ([], s5)
                end in
              let g3 := take_while is_digit s6 in
              match g3, drop_while is_digit s6 with
              | _ :: _, c3 :: _ =>
                  if Ascii.eqb c3 ")"%char then Some (g1, g2, sign ++ g3)
                  else None
              | _, _ => None
              end
          | _, _ => None
          end
      | _, _ => None
      end
  | [] => None
  end.

End Py.

(** ** Objects, worlds and the method monad *)

(** An instance of [SparseMatrix]: its three attributes. *)
Record SparseMatrix := mkSparseMatrix {
  Rows : Z;
  Colu : Z;
  elements : gmap (Z * Z) Z
}.

(** [SparseMatrix()], the state set up by [__init__]. *)
Definition init_matrix : SparseMatrix :=
  {| Rows := 0; Colu := 0; elements := ∅ |}.

#[global] Instance SparseMatrix_inhabited : Inhabited SparseMatrix :=
  populate init_matrix.

Abbreviation loc := positive.

(** A world: the live matrix objects and the text files on disk. *)
Record world := mkWorld {
  heap : gmap loc SparseMatrix;
  disk : gmap string Py.text
}.

Inductive exn :=
  | ValueError (msg : string)
  | IndexError
  | FileNotFoundError.

Inductive outcome (A : Type) :=
  | Return (a : A)
  | Raise (e : exn).
Arguments Return {A} a.
Arguments Raise {A} e.

(** A method call: it ends by returning or by raising, and in both cases
    hands back the world as mutated so far. *)
Definition M (A : Type) : Type := world → outcome A * world.

#[global] Instance M_ret : MRet M := λ A a w, (Return a, w).

#[global] Instance M_bind : MBind M := λ A B f m w,
  match m w with
  | (Return a, w') => f a w'
  | (Raise e, w') => (Raise e, w')
  end.

Definition raise {A} (e : exn) : M A := λ w, (Raise e, w).

(** [try: body  except Exception as e: handler] *)
Definition try_except {A} (body : M A) (handler : exn → M A) : M A := λ w,
  match body w with
  | (Return a, w') => (Return a, w')
  | (Raise e, w') => handler e w'
  end.

(** [for x in l: body] *)
Fixpoint for_each {A} (l : list A) (body : A → M unit) : M unit :=
  match l with
  | [] => mret ()
  | x :: r => body x;; for_each r body
  end.

(** [range(n)] *)
Definition range (n : Z) : list Z := Z.of_nat <$> seq 0 (Z.to_nat n).

(** [int(s)] inside a method. *)
Definition py_int (s : Py.text) : M Z :=
  match Py.int s with
  | Some z => mret z
  | None => raise (ValueError "invalid literal for int() with base 10")
  end.

(** [l[i]] on a list. *)
Definition index {A} (l : list A) (i : nat) : M A :=
  match l !! i with
  | Some x => mret x
  | None => raise IndexError
  end.

(** Attribute access on the object at [self]. *)
Definition get_attr {A} (field : SparseMatrix → A) (self : loc) : M A :=
  λ w, (Return (field (heap w !!! self)), w).

Definition update (self : loc) (f : SparseMatrix → SparseMatrix) : M unit :=
  λ w, (Return (),
        {| heap := <[self := f (heap w !!! self)]> (heap w); disk := disk w |}).

Definition set_Rows (self : loc) (r : Z) : M unit :=
  update self (λ m, {| Rows := r; Colu := Colu m; elements := elements m |}).

Definition set_Colu (self : loc) (c : Z) : M unit :=
  update self (λ m, {| Rows := Rows m; Colu := c; elements := elements m |}).

Definition set_elements (self : loc) (d : gmap (Z * Z) Z) : M unit :=
  update self (λ m, {| Rows := Rows m; Colu := Colu m; elements := d |}).

(** [SparseMatrix()]: a new object at a location not in use. *)
Definition new_SparseMatrix : M loc := λ w,
  let l := fresh (dom (heap w)) in
  (Return l, {| heap := <[l := init_matrix]> (heap w); disk := disk w |}).

(** [open(path, 'r')] followed by reading the whole file. *)
Definition read_text (path : string) : M Py.text := λ w,
  match disk w !! path with
  | Some t => (Return t, w)
  | None => (Raise FileNotFoundError, w)
  end.

(** [open(path, 'w')] followed by the writes making up [t]. *)
Definition write_text (path : string) (t : Py.text) : M unit := λ w,
  (Return (), {| heap := heap w; disk := <[path := t]> (disk w) |}).

(** ** The methods of [SparseMatrix] *)

(** [self.elements.get((currRow, currCol), 0)] *)
Definition get_entry (m : SparseMatrix) (currRow currCol : Z) : Z :=
  default 0 (elements m !! (currRow, currCol)).

(** The body of [setElement] on the attributes of the object. *)
Definition set_entry (m : SparseMatrix) (currRow currCol value : Z)
  : SparseMatrix :=
  if decide (value ≠ 0) then
    {| Rows := Rows m; Colu := Colu m;
       elements := <[(currRow, currCol) := value]> (elements m) |}
  else if decide ((currRow, currCol) ∈ dom (elements m)) then
    {| Rows := Rows m; Colu := Colu m;
       elements := delete (currRow, currCol) (elements m) |}
  else m.

Definition getElement (self : loc) (currRow currCol : Z) : M Z :=
  get_attr (λ m, get_entry m currRow currCol) self.

Definition setElement (self : loc) (currRow currCol value : Z) : M unit :=
  update self (λ m, set_entry m currRow currCol value).

Definition wrong_format : exn := ValueError "Input file has wrong format".

(** One line of the body of a matrix file, inside the [for] loop of
    [read_from_file]. *)
Definition read_line (self : loc) (line : Py.text) : M unit :=
  let line := Py.strip line in
  match line with
  | _ :: _ =>
      match Py.re_match_triple line with
      | Some (g1, g2, g3) =>
          row ← py_int g1;
          col ← py_int g2;
          value ← py_int g3;
          setElement self row col value
      | None => raise wrong_format
      end
  | [] => mret ()
  end.

Definition read_from_file (self : loc) (filePath : string) : M unit :=
  set_elements self ∅;;
  try_except
    (file ← read_text filePath;
     let lines := Py.readlines file in
     l0 ← index lines 0;
     f0 ← index (Py.split "="%char l0) 1;
     r ← py_int f0;
     set_Rows self r;;
     l1 ← index lines 1;
     f1 ← index (Py.split "="%char l1) 1;
     c ← py_int f1;
     set_Colu self c;;
     for_each (drop 2 lines) (read_line self))
    (λ e, raise wrong_format).

Definition mismatch_addition : exn :=
  ValueError "Matrices dimensions do not match for addition".
Definition mismatch_subtraction : exn :=
  ValueError "Matrices dimensions do not match for subtraction".
Definition mismatch_multiplication : exn :=
  ValueError "Matrices dimensions do not match for multiplication".

(** [set(self.elements.keys()).union(other.elements.keys())], listed. *)
Definition all_keys (self other : loc) : M (list (Z * Z)) :=
  ks ← get_attr (λ m, dom (elements m)) self;
  ko ← get_attr (λ m, dom (elements m)) other;
  mret (base.elements (ks ∪ ko)).

Definition add (self other : loc) : M loc :=
  sr ← get_attr Rows self; or ← get_attr Rows other;
  sc ← get_attr Colu self; oc ← get_attr Colu other;
  if decide (sr ≠ or ∨ sc ≠ oc) then raise mismatch_addition
  else
    result ← new_SparseMatrix;
    r ← get_attr Rows self; set_Rows result r;;
    c ← get_attr Colu self; set_Colu result c;;
    keys ← all_keys self other;
    for_each keys (λ key,
      x ← getElement self key.1 key.2;
      y ← getElement other key.1 key.2;
      setElement result key.1 key.2 (x + y));;
    mret result.

Definition subtract (self other : loc) : M loc :=
  sr ← get_attr Rows self; or ← get_attr Rows other;
  sc ← get_attr Colu self; oc ← get_attr Colu other;
  if decide (sr ≠ or ∨ sc ≠ oc) then raise mismatch_subtraction
  else
    result ← new_SparseMatrix;
    r ← get_attr Rows self; set_Rows result r;;
    c ← get_attr Colu self; set_Colu result c;;
    keys ← all_keys self other;
    for_each keys (λ key,
      x ← getElement self key.1 key.2;
      y ← getElement other key.1 key.2;
      setElement result key.1 key.2 (x - y));;
    mret result.

Definition multiply (self other : loc) : M loc :=
  sc ← get_attr Colu self; or ← get_attr Rows other;
  if decide (sc ≠ or) then raise mismatch_multiplication
  else
    result ← new_SparseMatrix;
    r ← get_attr Rows self; set_Rows result r;;
    c ← get_attr Colu other; set_Colu result c;;
    keys ← get_attr (λ m, (map_to_list (elements m)).*1) self;
    for_each keys (λ '(i, k),
      n ← get_attr Colu other;
      for_each (range n) (λ j,
        acc ← getElement result i j;
        x ← getElement self i k;
        y ← getElement other k j;
        setElement result i j (acc + x * y)));;
    mret result.

(** [f"({i}, {j}, {value})"] *)
Definition entry_line (e : Z * Z * Z) : Py.text :=
  let '(i, j, value) := e in
  Py.chars "(" ++ Py.str i ++ Py.chars ", " ++ Py.str j ++ Py.chars ", "
    ++ Py.str value ++ Py.chars ")".

(** ['\n'.join(output)] *)
Fixpoint join_lines (output : list Py.text) : Py.text :=
  match output with
  | [] => []
  | [l] => l
  | l :: ls => l ++ Py.LF :: join_lines ls
  end.

(** The lines of [__str__] for the items of the dictionary in the order
    [entries]. *)
Definition str_entries (entries : list (Z * Z * Z)) : Py.text :=
  join_lines (entry_line <$> entries).

Definition str_matrix (m : SparseMatrix) : Py.text :=
  str_entries (map_to_list (elements m)).

(** [SparseMatrix.__str__] *)
Definition __str__ (self : loc) : M Py.text := get_attr str_matrix self.

(** The three writes at the end of [process_file]. *)
Definition write_result (result : loc) (output_file_path : string) : M unit :=
  r ← get_attr Rows result;
  c ← get_attr Colu result;
  s ← __str__ result;
  write_text output_file_path
    (Py.chars "rows=" ++ Py.str r ++ [Py.LF]
     ++ Py.chars "cols=" ++ Py.str c ++ [Py.LF] ++ s).

Definition process_file (self : loc) (input_file_path output_file_path
    operation other_matrix_file_path : string) : M unit :=
  read_from_file self input_file_path;;
  other_matrix ← new_SparseMatrix;
  read_from_file other_matrix other_matrix_file_path;;
  result ←
    (if decide (operation = "add") then add self other_matrix
     else if decide (operation = "subtract") then subtract self other_matrix
     else if decide (operation = "multiply") then multiply self other_matrix
     else raise (ValueError "Invalid operation"));
  write_result result output_file_path.

(** ** Functional reading of the loops, and predicates *)

(** What the setter leaves at a coordinate it writes [v] to. *)
Definition stored (v : Z) : option Z := if decide (v = 0) then None else Some v.

(** No stored entry has value zero. *)
Definition nonzero (m : SparseMatrix) : Prop :=
  ∀ k v, elements m !! k = Some v → v ≠ 0.

(** One iteration of the loop of [add] ([f] is [Z.add]) or of [subtract]
    ([f] is [Z.sub]) on the result under construction. *)
Definition combine_step (f : Z → Z → Z) (A B R : SparseMatrix) (key : Z * Z)
  : SparseMatrix :=
  set_entry R key.1 key.2 (f (get_entry A key.1 key.2) (get_entry B key.1 key.2)).

Definition combine_loop (f : Z → Z → Z) (A B : SparseMatrix)
    (keys : list (Z * Z)) (R : SparseMatrix) : SparseMatrix :=
  fold_left (combine_step f A B) keys R.

Definition union_keys (A B : SparseMatrix) : list (Z * Z) :=
  base.elements (dom (elements A) ∪ dom (elements B)).

(** The matrix built by [add] and [subtract]. *)
Definition combine (f : Z → Z → Z) (A B : SparseMatrix) : SparseMatrix :=
  combine_loop f A B (union_keys A B)
    {| Rows := Rows A; Colu := Colu A; elements := ∅ |}.

(** One iteration of the inner loop of [multiply]. *)
Definition multiply_step (A B : SparseMatrix) (i k : Z) (R : SparseMatrix)
    (j : Z) : SparseMatrix :=
  set_entry R i j (get_entry R i j + get_entry A i k * get_entry B k j).

(** One iteration of the outer loop of [multiply]. *)
Definition multiply_row (A B R : SparseMatrix) (key : Z * Z) : SparseMatrix :=
  fold_left (multiply_step A B key.1 key.2) (range (Colu B)) R.

Definition multiply_loop (A B : SparseMatrix) (keys : list (Z * Z))
    (R : SparseMatrix) : SparseMatrix :=
  fold_left (multiply_row A B) keys R.

(** The matrix built by [multiply]. *)
Definition product (A B : SparseMatrix) : SparseMatrix :=
  multiply_loop A B (map_to_list (elements A)).*1
    {| Rows := Rows A; Colu := Colu B; elements := ∅ |}.

Definition Zsum (l : list Z) : Z := foldr Z.add 0 l.

(** The contribution of the stored key [key] of [A] to the entry [(i, j)]
    of the product. *)
Definition term (A B : SparseMatrix) (i j : Z) (key : Z * Z) : Z :=
  if decide (key.1 = i) then get_entry A i key.2 * get_entry B key.2 j else 0.

(** The world after a call that returned a new object holding [m]. *)
Definition allocated (w : world) (m : SparseMatrix) : world :=
  {| heap := <[fresh (dom (heap w)) := m]> (heap w); disk := disk w |}.

(** The inner product of row [i] of [A] and column [j] of [B], over the
    inner indices listed in [K]. *)
Definition inner_product (A B : SparseMatrix) (i j : Z) (K : list Z) : Z :=
  Zsum ((λ k, get_entry A i k * get_entry B k j) <$> K).

(** The occupied columns of row [i], a duplicate-free cover of itself. *)
Definition row_columns (A : SparseMatrix) (i : Z) : list Z :=
  (filter (λ key, key.1 = i) (map_to_list (elements A)).*1).*2.

(** ** Functional reading of [read_from_file] *)

(** [int(lines[n].split('=')[1])], or [None] when one of the three steps
    raises. *)
Definition header_value (lines : list Py.text) (n : nat) : option Z :=
  match lines !! n with
  | Some l =>
      match Py.split "="%char l !! 1%nat with
      | Some field => Py.int field
      | None => None
      end
  | None => None
  end.

(** The triple read from a stripped line that matches the pattern. *)
Definition triple_of (line : Py.text) : option (Z * Z * Z) :=
  match Py.re_match_triple line with
  | Some (g1, g2, g3) =>
      match Py.int g1, Py.int g2, Py.int g3 with
      | Some row, Some col, Some value => Some (row, col, value)
      | _, _, _ => None
      end
  | None => None
  end.

(** The effect of one body line on the object; [None] when it raises. *)
Definition apply_line (m : SparseMatrix) (line : Py.text) : option SparseMatrix :=
  match Py.strip line with
  | [] => Some m
  | _ :: _ =>
      match triple_of (Py.strip line) with
      | Some (row, col, value) => Some (set_entry m row col value)
      | None => None
      end
  end.

(** The body lines in order, up to the first one that raises; the flag
    tells whether the loop ran to its end. *)
Fixpoint apply_lines (lines : list Py.text) (m : SparseMatrix)
  : bool * SparseMatrix :=
  match lines with
  | [] => (true, m)
  | line :: rest =>
      match apply_line m line with
      | Some m' => apply_lines rest m'
      | None => (false, m)
      end
  end.

(** The attributes of the object after [read_from_file], and whether the
    call returned; [file] is the content of the file, if it can be read. *)
Definition parse_into (m : SparseMatrix) (file : option Py.text)
  : bool * SparseMatrix :=
  let m0 := {| Rows := Rows m; Colu := Colu m; elements := ∅ |} in
  match file with
  | None => (false, m0)
  | Some t =>
      let lines := Py.readlines t in
      match header_value lines 0 with
      | None => (false, m0)
      | Some r =>
          match header_value lines 1 with
          | None => (false, {| Rows := r; Colu := Colu m; elements := ∅ |})
          | Some c =>
              apply_lines (drop 2 lines) {| Rows := r; Colu := c; elements := ∅ |}
          end
      end
  end.

(** A line that is empty once stripped. *)
Definition blank (line : Py.text) : Prop := Py.strip line = [].

(** A line that is not blank and that the pattern does not match. *)
Definition offending (line : Py.text) : Prop :=
  Py.strip line ≠ [] ∧ Py.re_match_triple (Py.strip line) = None.

(** A text whose first and last characters are not white space. *)
Definition solid (s : Py.text) : Prop :=
  (∃ c, s = [c] ∧ Py.is_space c = false)
  ∨ (∃ c s' c', s = c :: s' ++ [c'] ∧ Py.is_space c = false ∧ Py.is_space c' = false).

(** A character that is neither a line end nor the separator of a header
    line. *)
Definition plain (c : ascii) : bool :=
  negb (Ascii.eqb c Py.CR) && negb (Ascii.eqb c Py.LF)
  && negb (Ascii.eqb c "="%char).

(** The lines read back from ['\n'.join(output)]: all but the last one end
    with a line feed. *)
Fixpoint terminated (output : list Py.text) : list Py.text :=
  match output with
  | [] => []
  | [l] => [l]
  | l :: ls => (l ++ [Py.LF]) :: terminated ls
  end.

(** The setter applied to a list of entries in order. *)
Definition set_entries (m : SparseMatrix) (entries : list (Z * Z * Z))
  : SparseMatrix :=
  fold_left (λ m e, set_entry m e.1.1 e.1.2 e.2) entries m.

(** The triples of the lines that match, in order; a blank line gives
    none. *)
Definition matched_triples (lines : list Py.text) : list (Z * Z * Z) :=
  omap (λ l, triple_of (Py.strip l)) lines.

(** ** The data model of the specification *)

(** A well-formed matrix: non-negative dimensions, every stored coordinate
    inside them, no stored zero. *)
Definition well_formed (m : SparseMatrix) : Prop :=
  0 ≤ Rows m ∧ 0 ≤ Colu m ∧
  ∀ i j v, elements m !! (i, j) = Some v →
    0 ≤ i < Rows m ∧ 0 ≤ j < Colu m ∧ v ≠ 0.

(** The text written by [process_file] for the matrix [m]. *)
Definition serialize (m : SparseMatrix) : Py.text :=
  Py.chars "rows=" ++ Py.str (Rows m) ++ [Py.LF]
  ++ Py.chars "cols=" ++ Py.str (Colu m) ++ [Py.LF] ++ str_matrix m.


(** Every live object satisfies [P]. *)
Definition all_objects (P : SparseMatrix → Prop) (w : world) : Prop :=
  map_Forall (λ _ m, P m) (heap w).

(** A method call raises [e] in the world [w]. *)
Definition raises {X} (m : M X) (w : world) (e : exn) : Prop :=
  ∃ w', m w = (Raise e, w').

(** ** Programs over the public operations *)

Inductive call :=
  | Call_init
  | Call_read_from_file (self : loc) (filePath : string)
  | Call_getElement (self : loc) (currRow currCol : Z)
  | Call_setElement (self : loc) (currRow currCol value : Z)
  | Call_add (self other : loc)
  | Call_subtract (self other : loc)
  | Call_multiply (self other : loc)
  | Call_process_file (self : loc)
      (input_file_path output_file_path operation other_matrix_file_path : string).

Definition run_call (c : call) : M unit :=
  match c with
  | Call_init => new_SparseMatrix;; mret ()
  | Call_read_from_file self filePath => read_from_file self filePath
  | Call_getElement self i j => getElement self i j;; mret ()
  | Call_setElement self i j v => setElement self i j v
  | Call_add self other => add self other;; mret ()
  | Call_subtract self other => subtract self other;; mret ()
  | Call_multiply self other => multiply self other;; mret ()
  | Call_process_file self i o op other => process_file self i o op other
  end.

(** The objects a call is made on are live. *)
Definition live (w : world) (c : call) : Prop :=
  match c with
  | Call_init => True
  | Call_read_from_file self _ | Call_getElement self _ _
  | Call_setElement self _ _ _ | Call_process_file self _ _ _ _ =>
      self ∈ dom (heap w)
  | Call_add self other | Call_subtract self other | Call_multiply self other =>
      self ∈ dom (heap w) ∧ other ∈ dom (heap w)
  end.

(** The worlds a program can be in: it starts without objects, calls the
    public operations on live objects, and files may change in between. *)
Inductive reachable : world → Prop :=
  | reachable_start d : reachable {| heap := ∅; disk := d |}
  | reachable_call w c : reachable w → live w c → reachable (run_call c w).2
  | reachable_disk w d : reachable w → reachable {| heap := heap w; disk := d |}.

(** The call [op self other] made in [w] changes no object that was live
    and no file, and the matrix it returns is a new object. *)
Definition leaves_operands (op : loc → loc → M loc) (w : world)
    (self other : loc) : Prop :=
  ∀ o w', op self other w = (o, w') →
    heap w' !! self = heap w !! self
    ∧ heap w' !! other = heap w !! other
    ∧ (∀ l, l ∈ dom (heap w) → heap w' !! l = heap w !! l)
    ∧ disk w' = disk w
    ∧ (∀ result, o = Return result →
         (result ∉ dom (heap w)) ∧ result ∈ dom (heap w')).

(** Entrywise equality: the getter reads the same value everywhere. *)
Definition entrywise_equal (m1 m2 : SparseMatrix) : Prop :=
  ∀ i j, get_entry m1 i j = get_entry m2 i j.

(** ** The matrices of the concrete scenario *)

Definition text_A : Py.text :=
  Py.chars "rows=2" ++ [Py.LF] ++ Py.chars "cols=2" ++ [Py.LF]
  ++ Py.chars "(0,0,1)" ++ [Py.LF] ++ Py.chars "(1,1,2)".

Definition text_B : Py.text :=
  Py.chars "rows=2" ++ [Py.LF] ++ Py.chars "cols=2" ++ [Py.LF]
  ++ Py.chars "(0,0,3)" ++ [Py.LF] ++ Py.chars "(0,1,4)".

Definition matrix_A : SparseMatrix :=
  {| Rows := 2; Colu := 2; elements := {[ (0, 0) := 1; (1, 1) := 2 ]} |}.

Definition matrix_B : SparseMatrix :=
  {| Rows := 2; Colu := 2; elements := {[ (0, 0) := 3; (0, 1) := 4 ]} |}.

(** A world with the two matrices as objects 1 and 2 and the two texts as
    files. *)
Definition scenario : world :=
  {| heap := {[ 1%positive := matrix_A; 2%positive := matrix_B ]};
     disk := {[ "A" := text_A; "B" := text_B ]} |}.

(** The entries of the object returned by a call, as a map. *)
Definition entries_of (m : M loc) (w : world) : option (gmap (Z * Z) Z) :=
  match m w with
  | (Return result, w') => Some (elements (heap w' !!! result))
  | (Raise _, _) => None
  end.

(** Parse the two files into new objects and apply [op] to them. *)
Definition parse_and (op : loc → loc → M loc) : M loc :=
  a ← new_SparseMatrix; read_from_file a "A";;
  b ← new_SparseMatrix; read_from_file b "B";;
  op a b.

(** A world without objects that holds the two files. *)
Definition scenario_files : world :=
  {| heap := ∅; disk := {[ "A" := text_A; "B" := text_B ]} |}.

(** A program: create a matrix, then store 5 at (0, 0). *)
Definition program_world : world :=
  (run_call (Call_setElement 1 0 0 5)
     (run_call Call_init {| heap := ∅; disk := ∅ |}).2).2.

(** A file whose third body line is not a triple. *)
Definition text_partial : Py.text :=
  Py.chars "rows=2" ++ [Py.LF] ++ Py.chars "cols=2" ++ [Py.LF]
  ++ Py.chars "(0,0,1)" ++ [Py.LF] ++ [Py.LF]
  ++ Py.chars "1 1 2" ++ [Py.LF] ++ Py.chars "(1,1,2)".

(** A file without a [rows=] line. *)
Definition text_no_rows : Py.text :=
  Py.chars "cols=2" ++ [Py.LF] ++ Py.chars "cols=3" ++ [Py.LF]
  ++ Py.chars "(0,0,1)".

(** A world with one empty matrix and the two files above. *)
Definition parse_world : world :=
  {| heap := {[ 1%positive := matrix_B ]};
     disk := {[ "P" := text_partial; "N" := text_no_rows ]} |}.

(** ** Further notions for the properties beyond the claims *)

(** The matrix stores nothing. *)
Definition empty_matrix (m : SparseMatrix) : Prop := elements m = ∅.

(** Every stored coordinate lies inside the declared dimensions. *)
Definition in_bounds (m : SparseMatrix) : Prop :=
  ∀ i j v, elements m !! (i, j) = Some v → 0 ≤ i < Rows m ∧ 0 ≤ j < Colu m.

(** Every stored column lies inside the declared columns. *)
Definition columns_in_bounds (m : SparseMatrix) : Prop :=
  ∀ i j v, elements m !! (i, j) = Some v → 0 ≤ j < Colu m.

(** The world after the construction of one matrix. *)
Definition fresh_world : world :=
  (run_call Call_init {| heap := ∅; disk := ∅ |}).2.

(** The value of the last triple of [triples] at the coordinate [k]. *)
Fixpoint last_triple (triples : list (Z * Z * Z)) (k : Z * Z) : option Z :=
  match triples with
  | [] => None
  | (i, j, v) :: rest =>
      match last_triple rest k with
      | Some x => Some x
      | None => if decide ((i, j) = k) then Some v else None
      end
  end.

(** A body line is accepted: blank, or matched at its start once
    stripped. *)
Definition accepted (line : Py.text) : Prop :=
  blank line ∨ is_Some (Py.re_match_triple (Py.strip line)).

(** A file that names two coordinates twice. *)
Definition text_twice : Py.text :=
  Py.chars "rows=2" ++ [Py.LF] ++ Py.chars "cols=2" ++ [Py.LF]
  ++ Py.chars "(0,0,1)" ++ [Py.LF] ++ Py.chars "(0,0,7)" ++ [Py.LF]
  ++ Py.chars "(1,1,2)" ++ [Py.LF] ++ Py.chars "(1,1,0)".

(** A file whose second line has no integer. *)
Definition text_bad_cols : Py.text :=
  Py.chars "rows=5" ++ [Py.LF] ++ Py.chars "cols=x" ++ [Py.LF]
  ++ Py.chars "(0,0,1)".

(** A world with the matrix B as object 1 and the two files above. *)
Definition reading_world : world :=
  {| heap := {[ 1%positive := matrix_B ]};
     disk := {[ "T" := text_twice; "H" := text_bad_cols ]} |}.


(** Every stored coordinate is non-negative and no stored value is zero:
    what the entry lines of a file can express. *)
Definition printable (m : SparseMatrix) : Prop :=
  ∀ i j v, elements m !! (i, j) = Some v → 0 ≤ i ∧ 0 ≤ j ∧ v ≠ 0.

(** Whether a file parses, and the matrix it parses to. *)
Definition parses (file : option Py.text) : bool :=
  (parse_into init_matrix file).1.

Definition parsed (file : option Py.text) : SparseMatrix :=
  (parse_into init_matrix file).2.

(** The dispatch of [process_file] on the two parsed matrices: the error
    raised or the matrix computed. *)
Definition pipeline_result (operation : string) (A B : SparseMatrix)
  : exn + SparseMatrix :=
  if decide (operation = "add") then
    if decide (Rows A ≠ Rows B ∨ Colu A ≠ Colu B) then inl mismatch_addition
    else inr (combine Z.add A B)
  else if decide (operation = "subtract") then
    if decide (Rows A ≠ Rows B ∨ Colu A ≠ Colu B) then inl mismatch_subtraction
    else inr (combine Z.sub A B)
  else if decide (operation = "multiply") then
    if decide (Colu A ≠ Rows B) then inl mismatch_multiplication
    else inr (product A B)
  else inl (ValueError "Invalid operation").

(** The world after [process_file] has parsed both files: [self] holds the
    first matrix and a new object the second. *)
Definition after_parsing (w : world) (self : loc) (A B : SparseMatrix) : world :=
  {| heap := <[fresh (dom (<[self := A]> (heap w))) := B]> (<[self := A]> (heap w));
     disk := disk w |}.

(** ** The batch entry point *)

(** [s.startswith(p)] *)
Fixpoint starts_with (p s : Py.text) : bool :=
  match p, s with
  | [], _ => true
  | a :: p', b :: s' => Ascii.eqb a b && starts_with p' s'
  | _ :: _, [] => false
  end.

(** [s.endswith(suffix)] *)
Definition ends_with (suffix s : Py.text) : bool :=
  starts_with (rev suffix) (rev s).


(** The scan of [s.replace(old, new)] for a non-empty [old]: the
    occurrences are found from left to right and do not overlap; [skip]
    counts the characters of a replaced occurrence still to be passed. *)
Fixpoint replace_from (old new s : Py.text) (skip : nat) : Py.text :=
  match s with
  | [] => []
  | c :: r =>
      match skip with
      | S k => replace_from old new r k
      | O =>
          if starts_with old s
          then new ++ replace_from old new r (length old - 1)
          else c :: replace_from old new r 0
      end
  end.

(** [s.replace(old, new)]; for an empty [old], [new] goes before every
    character and at the end. *)
Definition replace (old new s : Py.text) : Py.text :=
  match old with
  | [] => new ++ flat_map (λ c, c :: new) s
  | _ :: _ => replace_from old new s 0
  end.

(** [os.path.join(a, b)] on a POSIX system. *)
Definition path_join (a b : Py.text) : Py.text :=
  if starts_with ["/"%char] b then b
  else if bool_decide (a = []) || ends_with ["/"%char] a then a ++ b
  else a ++ "/"%char :: b.

(** A path as the key of a file. *)
Definition file_name (p : Py.text) : string := string_of_list_ascii p.

Definition input_folder : Py.text :=
  Py.chars "/Users/ghyghi/Documents/VS Code/DSA/hw02/sample_inputs".

Definition output_folder : Py.text :=
  Py.chars "/Users/ghyghi/Documents/VS Code/DSA/hw02/sample_results".

(** [os.path.isfile(path)] *)
Definition isfile (path : Py.text) : M bool :=
  λ w, (Return (bool_decide (is_Some (disk w !! file_name path))), w).

(** One [try] block of the loop: the call of [process_file], then the line
    printed on success or, for a [ValueError], on failure. *)
Definition attempt (processor : loc) (matrix1_path output_path operation
    matrix2_path : Py.text) (written failed : Py.text) : M (list Py.text) :=
  λ w,
    match process_file processor (file_name matrix1_path)
            (file_name output_path) (file_name operation)
            (file_name matrix2_path) w with
    | (Return _, w') => (Return [written ++ output_path], w')
    | (Raise (ValueError msg), w') => (Return [failed ++ Py.chars msg], w')
    | (Raise e, w') => (Raise e, w')
    end.

Definition matrix1_path (filename : Py.text) : Py.text :=
  path_join input_folder filename.

Definition matrix2_path (filename : Py.text) : Py.text :=
  path_join input_folder
    (replace (Py.chars "_2.txt") (Py.chars "_3.txt") filename).

(** [os.path.join(output_folder, f"{filename.replace('_1.txt', '')}_<op>_results.txt")] *)
Definition output_path (filename suffix : Py.text) : Py.text :=
  path_join output_folder (replace (Py.chars "_1.txt") [] filename ++ suffix).

(** The body of the loop for one directory entry; the result is the list of
    printed lines. *)
Definition batch_step (processor : loc) (filename : Py.text) : M (list Py.text) :=
  if ends_with (Py.chars "_1.txt") filename then
    present ← isfile (matrix2_path filename);
    if negb present then
      mret [Py.chars "Matrix file " ++ matrix2_path filename
            ++ Py.chars " does not exist, skipping."]
    else
      a ← attempt processor (matrix1_path filename)
             (output_path filename (Py.chars "_add_results.txt"))
             (Py.chars "add") (matrix2_path filename)
             (Py.chars "Addition result written to ")
             (Py.chars "Failed to add matrices for " ++ filename ++ Py.chars ": ");
      s ← attempt processor (matrix1_path filename)
             (output_path filename (Py.chars "_subtract_results.txt"))
             (Py.chars "subtract") (matrix2_path filename)
             (Py.chars "Subtraction result written to ")
             (Py.chars "Failed to subtract matrices for " ++ filename
              ++ Py.chars ": ");
      m ← attempt processor (matrix1_path filename)
             (output_path filename (Py.chars "_multiply_results.txt"))
             (Py.chars "multiply") (matrix2_path filename)
             (Py.chars "Multiplication result written to ")
             (Py.chars "Failed to multiply matrices for " ++ filename
              ++ Py.chars ": ");
      mret (a ++ s ++ m)
  else mret [].

(** [for filename in listing: ...] *)
Fixpoint batch (processor : loc) (listing : list Py.text) : M (list Py.text) :=
  match listing with
  | [] => mret []
  | filename :: rest =>
      out ← batch_step processor filename;
      outs ← batch processor rest;
      mret (out ++ outs)
  end.

(** The entry point, for the directory listing returned by
    [os.listdir(input_folder)]. *)
Definition main (listing : list Py.text) : M (list Py.text) :=
  sparse_matrix_processor ← new_SparseMatrix;
  batch sparse_matrix_processor listing.

(** The three files the loop can write for one directory entry. *)
Definition output_paths (filename : Py.text) : list string :=
  [file_name (output_path filename (Py.chars "_add_results.txt"));
   file_name (output_path filename (Py.chars "_subtract_results.txt"));
   file_name (output_path filename (Py.chars "_multiply_results.txt"))].

(** A directory listing holds base names: no name contains a slash. *)
Definition base_names (listing : list Py.text) : Prop :=
  ∀ filename, filename ∈ listing → "/"%char ∉ filename.

(** A directory with one matrix file and two other entries. *)
Definition sample_listing : list Py.text :=
  [Py.chars ".DS_Store"; Py.chars "m_1.txt"; Py.chars "notes.md"].

Definition sample_folder : world :=
  {| heap := {[ 1%positive := init_matrix ]};
     disk := {[ file_name (matrix1_path (Py.chars "m_1.txt")) := text_A ]} |}.

(** ** Entries: the getter and the setter on one object *)

Lemma stored_default v : default 0 (stored v) = v.
Proof. unfold stored. by case_decide. Qed.

Lemma stored_nonzero v x : stored v = Some x → x ≠ 0.
Proof. unfold stored. case_decide; naive_solver. Qed.

Lemma set_entry_Rows m i j v : Rows (set_entry m i j v) = Rows m.
Proof. unfold set_entry. by repeat case_decide. Qed.

Lemma set_entry_Colu m i j v : Colu (set_entry m i j v) = Colu m.
Proof. unfold set_entry. by repeat case_decide. Qed.

Lemma set_entry_lookup m i j v k :
  elements (set_entry m i j v) !! k
  = if decide (k = (i, j)) then stored v else elements m !! k.
Proof.
  unfold set_entry, stored.
  destruct (decide (v ≠ 0)) as [Hv|Hv]; simpl.
  - rewrite (decide_False (P := v = 0)) by done.
    destruct (decide (k = (i, j))) as [->|Hk].
    + apply lookup_insert_eq.
    + by apply lookup_insert_ne.
  - assert (v = 0) as -> by lia. rewrite (decide_True (P := 0 = 0)) by done.
    destruct (decide ((i, j) ∈ dom (elements m))) as [Hd|Hd]; simpl.
    + destruct (decide (k = (i, j))) as [->|Hk].
      * apply lookup_delete_eq.
      * by apply lookup_delete_ne.
    + apply not_elem_of_dom in Hd.
      destruct (decide (k = (i, j))) as [->|Hk]; done.
Qed.

Lemma get_entry_set_entry m i j v i' j' :
  get_entry (set_entry m i j v) i' j'
  = if decide ((i', j') = (i, j)) then v else get_entry m i' j'.
Proof.
  unfold get_entry. rewrite set_entry_lookup.
  case_decide; [apply stored_default | done].
Qed.

Lemma set_entry_nonzero m i j v : nonzero m → nonzero (set_entry m i j v).
Proof.
  intros Hm k x. rewrite set_entry_lookup.
  case_decide; [apply stored_nonzero | apply Hm].
Qed.

Lemma nonzero_lookup m i j :
  nonzero m → elements m !! (i, j) = stored (get_entry m i j).
Proof.
  intros Hm. unfold get_entry, stored.
  destruct (elements m !! (i, j)) as [v|] eqn:E; cbn [default].
  - apply Hm in E. by rewrite decide_False.
  - by rewrite decide_True.
Qed.

Lemma nonzero_empty r c : nonzero {| Rows := r; Colu := c; elements := ∅ |}.
Proof. intros k v. simpl. by rewrite lookup_empty. Qed.

Lemma get_entry_empty r c i j :
  get_entry {| Rows := r; Colu := c; elements := ∅ |} i j = 0.
Proof. unfold get_entry. simpl. by rewrite lookup_empty. Qed.

(** Two matrices with the same attributes are the same value. *)
Lemma matrix_eq (m1 m2 : SparseMatrix) :
  Rows m1 = Rows m2 → Colu m1 = Colu m2 → elements m1 = elements m2 → m1 = m2.
Proof. destruct m1, m2; simpl; congruence. Qed.

(** ** The loops of the arithmetic methods, on one object *)

Section Loops.
Variables (f : Z → Z → Z) (A B : SparseMatrix).

Lemma combine_loop_Rows keys R : Rows (combine_loop f A B keys R) = Rows R.
Proof.
  revert R. induction keys as [|key keys IH]; intros R; simpl; [done|].
  rewrite IH. apply set_entry_Rows.
Qed.

Lemma combine_loop_Colu keys R : Colu (combine_loop f A B keys R) = Colu R.
Proof.
  revert R. induction keys as [|key keys IH]; intros R; simpl; [done|].
  rewrite IH. apply set_entry_Colu.
Qed.

Lemma combine_loop_nonzero keys R :
  nonzero R → nonzero (combine_loop f A B keys R).
Proof.
  revert R. induction keys as [|key keys IH]; intros R HR; simpl; [done|].
  apply IH, set_entry_nonzero, HR.
Qed.

Lemma combine_loop_get keys R i j :
  get_entry (combine_loop f A B keys R) i j
  = if decide ((i, j) ∈ keys) then f (get_entry A i j) (get_entry B i j)
    else get_entry R i j.
Proof.
  unfold combine_loop. revert R.
  induction keys as [|[i0 j0] keys IH]; intros R; cbn [fold_left].
  - rewrite decide_False; [done | apply not_elem_of_nil].
  - rewrite IH. unfold combine_step at 1. cbn [fst snd].
    rewrite get_entry_set_entry.
    destruct (decide ((i, j) ∈ keys)) as [Hin|Hin].
    + rewrite decide_True; [done | by apply list_elem_of_further].
    + destruct (decide ((i, j) = (i0, j0))) as [E|E].
      * inversion E; subst. rewrite decide_True; [done | apply list_elem_of_here].
      * rewrite decide_False; [done|].
        rewrite elem_of_cons. tauto.
Qed.

Lemma multiply_row_Rows R key : Rows (multiply_row A B R key) = Rows R.
Proof.
  unfold multiply_row. generalize (range (Colu B)). intros js. revert R.
  induction js as [|j js IH]; intros R; simpl; [done|].
  rewrite IH. apply set_entry_Rows.
Qed.

Lemma multiply_row_Colu R key : Colu (multiply_row A B R key) = Colu R.
Proof.
  unfold multiply_row. generalize (range (Colu B)). intros js. revert R.
  induction js as [|j js IH]; intros R; simpl; [done|].
  rewrite IH. apply set_entry_Colu.
Qed.

Lemma multiply_row_nonzero R key :
  nonzero R → nonzero (multiply_row A B R key).
Proof.
  unfold multiply_row. generalize (range (Colu B)). intros js. revert R.
  induction js as [|j js IH]; intros R HR; simpl; [done|].
  apply IH, set_entry_nonzero, HR.
Qed.

Lemma multiply_loop_Rows keys R : Rows (multiply_loop A B keys R) = Rows R.
Proof.
  revert R. induction keys as [|key keys IH]; intros R; simpl; [done|].
  rewrite IH. apply multiply_row_Rows.
Qed.

Lemma multiply_loop_Colu keys R : Colu (multiply_loop A B keys R) = Colu R.
Proof.
  revert R. induction keys as [|key keys IH]; intros R; simpl; [done|].
  rewrite IH. apply multiply_row_Colu.
Qed.

Lemma multiply_loop_nonzero keys R :
  nonzero R → nonzero (multiply_loop A B keys R).
Proof.
  revert R. induction keys as [|key keys IH]; intros R HR; simpl; [done|].
  apply IH, multiply_row_nonzero, HR.
Qed.
End Loops.

Lemma elem_of_range n j : j ∈ range n ↔ 0 ≤ j < n.
Proof.
  unfold range. rewrite list_elem_of_fmap. split.
  - intros (x & -> & Hx). apply elem_of_seq in Hx. lia.
  - intros Hj. exists (Z.to_nat j). split; [lia|]. apply elem_of_seq. lia.
Qed.

Lemma NoDup_range n : NoDup (range n).
Proof.
  unfold range. apply NoDup_fmap_2; [|apply NoDup_seq].
  intros x y. lia.
Qed.

Lemma Zsum_cons x l : Zsum (x :: l) = x + Zsum l.
Proof. reflexivity. Qed.

Lemma Zsum_app l1 l2 : Zsum (l1 ++ l2) = Zsum l1 + Zsum l2.
Proof.
  induction l1 as [|x l1 IH]; [done|].
  rewrite <- app_comm_cons, !Zsum_cons, IH. lia.
Qed.

Lemma Zsum_Permutation l1 l2 : l1 ≡ₚ l2 → Zsum l1 = Zsum l2.
Proof. induction 1; rewrite ?Zsum_cons; lia. Qed.

Lemma Zsum_fmap_add {X} (g h : X → Z) l :
  Zsum ((λ x, g x + h x) <$> l) = Zsum (g <$> l) + Zsum (h <$> l).
Proof.
  induction l as [|x l IH]; [done|].
  rewrite !fmap_cons, !Zsum_cons, IH. lia.
Qed.

Lemma Zsum_zero {X} (g : X → Z) l : (∀ x, x ∈ l → g x = 0) → Zsum (g <$> l) = 0.
Proof.
  induction l as [|x l IH]; intros H; [done|].
  rewrite fmap_cons, Zsum_cons, (H x), IH; [done| |apply list_elem_of_here].
  intros y Hy. apply H. by apply list_elem_of_further.
Qed.

(** A sum with one non-zero term. *)
Lemma Zsum_single {X} `{EqDecision X} (g : X → Z) (l : list X) x0 :
  NoDup l → x0 ∈ l → (∀ x, x ∈ l → x ≠ x0 → g x = 0) →
  Zsum (g <$> l) = g x0.
Proof.
  induction l as [|x l IH]; intros Hnd Hin Hz.
  - by apply elem_of_nil in Hin.
  - apply NoDup_cons in Hnd as [Hx Hnd]. rewrite fmap_cons, Zsum_cons.
    destruct (decide (x = x0)) as [->|Hne].
    + rewrite Zsum_zero; [lia|]. intros y Hy. apply Hz.
      * by apply list_elem_of_further.
      * intros ->. done.
    + rewrite (Hz x); [|apply list_elem_of_here|done].
      rewrite IH; [lia|done| |].
      * apply elem_of_cons in Hin as [->|]; done.
      * intros y Hy. apply Hz. by apply list_elem_of_further.
Qed.

Section Product.
Variables (A B : SparseMatrix).

Lemma multiply_steps_get i0 k js R i j :
  NoDup js →
  get_entry (fold_left (multiply_step A B i0 k) js R) i j
  = if decide (i = i0 ∧ j ∈ js)
    then get_entry R i j + get_entry A i0 k * get_entry B k j
    else get_entry R i j.
Proof.
  revert R. induction js as [|j0 js IH]; intros R Hnd; cbn [fold_left].
  - rewrite decide_False; [done|]. intros [_ H]. by apply elem_of_nil in H.
  - apply NoDup_cons in Hnd as [Hj0 Hnd]. rewrite IH by done.
    unfold multiply_step at 1 2. rewrite get_entry_set_entry.
    destruct (decide (i = i0 ∧ j ∈ js)) as [[-> Hin]|Hn].
    + rewrite decide_False by (intros [= ->]; done).
      rewrite decide_True; [done|]. split; [done|]. by apply list_elem_of_further.
    + destruct (decide ((i, j) = (i0, j0))) as [[= -> ->]|Hne].
      * rewrite decide_True; [done|]. split; [done|]. apply list_elem_of_here.
      * rewrite decide_False; [done|]. rewrite elem_of_cons.
        intros [-> [->|?]]; tauto.
Qed.

Lemma multiply_row_get R key i j :
  get_entry (multiply_row A B R key) i j
  = if decide (0 ≤ j < Colu B) then get_entry R i j + term A B i j key
    else get_entry R i j.
Proof.
  unfold multiply_row. rewrite multiply_steps_get by apply NoDup_range.
  unfold term. destruct key as [i0 k]. cbn [fst snd].
  destruct (decide (0 ≤ j < Colu B)) as [Hj|Hj].
  - destruct (decide (i0 = i)) as [->|Hi].
    + rewrite decide_True; [done|]. by rewrite elem_of_range.
    + rewrite decide_False; [lia|]. intros [-> _]. done.
  - rewrite decide_False; [done|]. rewrite elem_of_range. tauto.
Qed.

Lemma multiply_loop_get keys R i j :
  get_entry (multiply_loop A B keys R) i j
  = if decide (0 ≤ j < Colu B)
    then get_entry R i j + Zsum (term A B i j <$> keys)
    else get_entry R i j.
Proof.
  unfold multiply_loop. revert R.
  induction keys as [|key keys IH]; intros R; cbn [fold_left].
  - case_decide; [|done]. rewrite fmap_nil. unfold Zsum. simpl. lia.
  - rewrite IH, multiply_row_get, fmap_cons, Zsum_cons. case_decide; lia.
Qed.

(** The order in which the keys of [A] are visited does not matter. *)
Lemma multiply_loop_Permutation keys keys' R :
  nonzero R → keys ≡ₚ keys' →
  multiply_loop A B keys R = multiply_loop A B keys' R.
Proof.
  intros HR Hp. apply matrix_eq.
  - by rewrite !multiply_loop_Rows.
  - by rewrite !multiply_loop_Colu.
  - apply map_eq. intros [i j].
    rewrite !nonzero_lookup by by apply multiply_loop_nonzero.
    rewrite !multiply_loop_get.
    by rewrite (Zsum_Permutation _ _ (fmap_Permutation (term A B i j) _ _ Hp)).
Qed.
End Product.

(** The sum over the stored keys of [A] is the sum over any duplicate-free
    list of inner indices [K] that covers the occupied columns of row [i]. *)
Lemma Zsum_term_inner (A B : SparseMatrix) (i j : Z) (K : list Z) :
  NoDup K →
  (∀ k, (i, k) ∈ dom (elements A) → k ∈ K) →
  Zsum (term A B i j <$> (map_to_list (elements A)).*1)
  = Zsum ((λ k, get_entry A i k * get_entry B k j) <$> K).
Proof.
  intros HK. destruct A as [r c m]. unfold term, get_entry. simpl.
  induction m as [|[i0 k0] v m Hnone IH] using map_ind; intros Hcov.
  - rewrite map_to_list_empty. simpl. symmetry. apply Zsum_zero.
    intros k _. by rewrite lookup_empty.
  - rewrite (Zsum_Permutation _ ((λ key : Z * Z,
        if decide (key.1 = i)
        then default 0 (<[(i0, k0):=v]> m !! (i, key.2)) * default 0 (elements B !! (key.2, j))
        else 0) <$> ((i0, k0) :: (map_to_list m).*1))).
    2:{ apply fmap_Permutation.
        by rewrite (map_to_list_insert m (i0, k0) v Hnone). }
    rewrite fmap_cons, Zsum_cons. cbn [fst snd].
    assert (Hrest : ∀ key, key ∈ (map_to_list m).*1 →
       (if decide (key.1 = i)
        then default 0 (<[(i0, k0):=v]> m !! (i, key.2)) * default 0 (elements B !! (key.2, j))
        else 0)
       = (if decide (key.1 = i)
        then default 0 (m !! (i, key.2)) * default 0 (elements B !! (key.2, j))
        else 0)).
    { intros [i1 k1] Hkey. cbn [fst snd]. case_decide as Hi; [|done]. subst i1.
      rewrite lookup_insert_ne; [done|]. intros [= -> ->].
      apply list_elem_of_fmap in Hkey as ([[? ?] ?] & [= <- <-] & Hkey).
      apply elem_of_map_to_list in Hkey. congruence. }
    erewrite (list_fmap_ext _ _ (map_to_list m).*1); last first.
    { intros n key Hn. apply Hrest. by eapply list_elem_of_lookup_2. }
    rewrite IH; last first.
    { intros k Hk. apply Hcov. rewrite dom_insert. set_solver. }
    destruct (decide (i0 = i)) as [->|Hi].
    + rewrite lookup_insert_eq. cbn [default].
      assert (Hk0 : k0 ∈ K).
      { apply Hcov. rewrite dom_insert. set_solver. }
      pose (g := λ k : Z,
        if decide (k = k0) then v * default 0 (elements B !! (k0, j)) else 0).
      pose (h := λ k : Z,
        default 0 (m !! (i, k)) * default 0 (elements B !! (k, j))).
      transitivity (Zsum (g <$> K) + Zsum (h <$> K)).
      * f_equal. rewrite (Zsum_single g K k0 HK Hk0).
        -- unfold g. by rewrite decide_True.
        -- intros x _ Hx. unfold g. by rewrite decide_False.
      * rewrite <- Zsum_fmap_add. f_equal. apply list_fmap_ext.
        intros n k _. unfold g, h.
        destruct (decide (k = k0)) as [->|Hk].
        -- rewrite lookup_insert_eq, Hnone. simpl. lia.
        -- rewrite lookup_insert_ne by congruence. lia.
    + rewrite Z.add_0_l. f_equal. apply list_fmap_ext. intros n k _.
      rewrite lookup_insert_ne by congruence. done.
Qed.

(** ** Running the methods *)

Lemma fresh_loc_ne (h : gmap loc SparseMatrix) (l : loc) :
  l ∈ dom h → fresh (dom h) ≠ l.
Proof. intros Hl E. apply (is_fresh (dom h)). by rewrite E. Qed.

Lemma run_bind {X Y} (m : M X) (k : X → M Y) w :
  (m ≫= k) w
  = match m w with
    | (Return a, w') => k a w'
    | (Raise e, w') => (Raise e, w')
    end.
Proof. reflexivity. Qed.

Lemma run_ret {X} (x : X) w : (mret x : M X) w = (Return x, w).
Proof. reflexivity. Qed.

Lemma run_get_attr {X} (field : SparseMatrix → X) self w :
  get_attr field self w = (Return (field (heap w !!! self)), w).
Proof. reflexivity. Qed.

Lemma run_getElement self i j w :
  getElement self i j w = (Return (get_entry (heap w !!! self) i j), w).
Proof. reflexivity. Qed.

Lemma run_setElement self i j v w :
  setElement self i j v w
  = (Return (),
     {| heap := <[self := set_entry (heap w !!! self) i j v]> (heap w);
        disk := disk w |}).
Proof. reflexivity. Qed.

Lemma run_update self g w :
  update self g w
  = (Return (),
     {| heap := <[self := g (heap w !!! self)]> (heap w); disk := disk w |}).
Proof. reflexivity. Qed.

Lemma run_set_Rows self r w :
  set_Rows self r w
  = (Return (),
     {| heap := <[self := {| Rows := r; Colu := Colu (heap w !!! self);
                             elements := elements (heap w !!! self) |}]> (heap w);
        disk := disk w |}).
Proof. reflexivity. Qed.

Lemma run_set_Colu self c w :
  set_Colu self c w
  = (Return (),
     {| heap := <[self := {| Rows := Rows (heap w !!! self); Colu := c;
                             elements := elements (heap w !!! self) |}]> (heap w);
        disk := disk w |}).
Proof. reflexivity. Qed.

Lemma run_set_elements self e w :
  set_elements self e w
  = (Return (),
     {| heap := <[self := {| Rows := Rows (heap w !!! self);
                             Colu := Colu (heap w !!! self);
                             elements := e |}]> (heap w);
        disk := disk w |}).
Proof. reflexivity. Qed.

Lemma run_new w :
  new_SparseMatrix w
  = (Return (fresh (dom (heap w))),
     {| heap := <[fresh (dom (heap w)) := init_matrix]> (heap w);
        disk := disk w |}).
Proof. reflexivity. Qed.

Lemma run_raise {X} e w : (raise e : M X) w = (Raise e, w).
Proof. reflexivity. Qed.

(** One step of symbolic execution of a method body. *)
Ltac run_step :=
  rewrite ?run_bind;
  first [ rewrite run_getElement | rewrite run_setElement
        | rewrite run_get_attr | rewrite run_set_Rows | rewrite run_set_Colu
        | rewrite run_set_elements | rewrite run_new | rewrite run_ret
        | rewrite run_raise ];
  cbv beta iota; cbn [heap disk].

Lemma for_each_combine (f : Z → Z → Z) (self other result : loc) keys h d R :
  result ≠ self → result ≠ other →
  for_each keys (λ key : Z * Z,
      x ← getElement self key.1 key.2;
      y ← getElement other key.1 key.2;
      setElement result key.1 key.2 (f x y))
    {| heap := <[result := R]> h; disk := d |}
  = (Return (),
     {| heap := <[result := combine_loop f (h !!! self) (h !!! other) keys R]> h;
        disk := d |}).
Proof.
  intros Hs Ho. revert R.
  induction keys as [|key keys IH]; intros R; [done|].
  cbn [for_each]. do 3 run_step.
  rewrite (lookup_total_insert_ne h result self) by done.
  rewrite (lookup_total_insert_ne h result other) by done.
  rewrite lookup_total_insert_eq, insert_insert_eq.
  apply IH.
Qed.

Lemma for_each_multiply_steps (self other result : loc) i k js h d R :
  result ≠ self → result ≠ other →
  for_each js (λ j : Z,
      acc ← getElement result i j;
      x ← getElement self i k;
      y ← getElement other k j;
      setElement result i j (acc + x * y))
    {| heap := <[result := R]> h; disk := d |}
  = (Return (),
     {| heap := <[result :=
          fold_left (multiply_step (h !!! self) (h !!! other) i k) js R]> h;
        disk := d |}).
Proof.
  intros Hs Ho. revert R.
  induction js as [|j js IH]; intros R; [done|].
  cbn [for_each]. do 4 run_step.
  rewrite (lookup_total_insert_ne h result self) by done.
  rewrite (lookup_total_insert_ne h result other) by done.
  rewrite lookup_total_insert_eq, insert_insert_eq.
  apply IH.
Qed.

Lemma for_each_multiply (self other result : loc) keys h d R :
  result ≠ self → result ≠ other →
  for_each keys (λ '(i, k),
      n ← get_attr Colu other;
      for_each (range n) (λ j,
        acc ← getElement result i j;
        x ← getElement self i k;
        y ← getElement other k j;
        setElement result i j (acc + x * y)))
    {| heap := <[result := R]> h; disk := d |}
  = (Return (),
     {| heap := <[result := multiply_loop (h !!! self) (h !!! other) keys R]> h;
        disk := d |}).
Proof.
  intros Hs Ho. revert R.
  induction keys as [|[i k] keys IH]; intros R; [done|].
  cbn [for_each]. run_step.
  rewrite (lookup_total_insert_ne h result other) by done.
  rewrite for_each_multiply_steps by done. cbv beta iota.
  apply IH.
Qed.

Section Arithmetic.
Variables (w : world) (self other : loc).
Hypothesis Hself : self ∈ dom (heap w).
Hypothesis Hother : other ∈ dom (heap w).

Let A := heap w !!! self.
Let B := heap w !!! other.

Lemma add_run :
  add self other w
  = if decide (Rows A ≠ Rows B ∨ Colu A ≠ Colu B)
    then (Raise mismatch_addition, w)
    else (Return (fresh (dom (heap w))), allocated w (combine Z.add A B)).
Proof.
  unfold add. do 4 run_step. fold A B.
  case_decide; [done|].
  do 5 run_step. unfold all_keys. do 3 run_step.
  pose proof (fresh_loc_ne _ _ Hself) as Hs.
  pose proof (fresh_loc_ne _ _ Hother) as Ho.
  rewrite !insert_insert_eq, !lookup_total_insert_eq.
  rewrite !(lookup_total_insert_ne (heap w) _ self) by done.
  rewrite !(lookup_total_insert_ne (heap w) _ other) by done.
  rewrite run_bind, for_each_combine by done.
  done.
Qed.

Lemma subtract_run :
  subtract self other w
  = if decide (Rows A ≠ Rows B ∨ Colu A ≠ Colu B)
    then (Raise mismatch_subtraction, w)
    else (Return (fresh (dom (heap w))), allocated w (combine Z.sub A B)).
Proof.
  unfold subtract. do 4 run_step. fold A B.
  case_decide; [done|].
  do 5 run_step. unfold all_keys. do 3 run_step.
  pose proof (fresh_loc_ne _ _ Hself) as Hs.
  pose proof (fresh_loc_ne _ _ Hother) as Ho.
  rewrite !insert_insert_eq, !lookup_total_insert_eq.
  rewrite !(lookup_total_insert_ne (heap w) _ self) by done.
  rewrite !(lookup_total_insert_ne (heap w) _ other) by done.
  rewrite run_bind, for_each_combine by done.
  done.
Qed.

Lemma multiply_run :
  multiply self other w
  = if decide (Colu A ≠ Rows B)
    then (Raise mismatch_multiplication, w)
    else (Return (fresh (dom (heap w))), allocated w (product A B)).
Proof.
  unfold multiply. do 2 run_step. fold A B.
  case_decide; [done|].
  do 6 run_step.
  pose proof (fresh_loc_ne _ _ Hself) as Hs.
  pose proof (fresh_loc_ne _ _ Hother) as Ho.
  rewrite !insert_insert_eq, !lookup_total_insert_eq.
  rewrite !(lookup_total_insert_ne (heap w) _ self) by done.
  rewrite !(lookup_total_insert_ne (heap w) _ other) by done.
  rewrite run_bind, for_each_multiply by done.
  done.
Qed.
End Arithmetic.

(** ** The results of [add], [subtract] and [multiply] on one object *)

Lemma elem_of_union_keys A B k :
  k ∈ union_keys A B ↔ k ∈ dom (elements A) ∪ dom (elements B).
Proof. unfold union_keys. apply elem_of_elements. Qed.

Lemma combine_Rows f A B : Rows (combine f A B) = Rows A.
Proof. unfold combine. by rewrite combine_loop_Rows. Qed.

Lemma combine_Colu f A B : Colu (combine f A B) = Colu A.
Proof. unfold combine. by rewrite combine_loop_Colu. Qed.

Lemma combine_nonzero f A B : nonzero (combine f A B).
Proof. apply combine_loop_nonzero, nonzero_empty. Qed.

Lemma combine_get f A B i j :
  get_entry (combine f A B) i j
  = if decide ((i, j) ∈ dom (elements A) ∪ dom (elements B))
    then f (get_entry A i j) (get_entry B i j) else 0.
Proof.
  unfold combine. rewrite combine_loop_get, get_entry_empty.
  destruct (decide ((i, j) ∈ union_keys A B)) as [H|H];
    rewrite elem_of_union_keys in H.
  - by rewrite decide_True.
  - by rewrite decide_False.
Qed.

Lemma combine_lookup f A B i j :
  elements (combine f A B) !! (i, j)
  = if decide ((i, j) ∈ dom (elements A) ∪ dom (elements B))
    then stored (f (get_entry A i j) (get_entry B i j)) else None.
Proof.
  rewrite nonzero_lookup by apply combine_nonzero.
  rewrite combine_get. by case_decide.
Qed.

(** Outside the occupied coordinates the getter reads zero. *)
Lemma get_entry_unoccupied A i j : (i, j) ∉ dom (elements A) → get_entry A i j = 0.
Proof. intros H. apply not_elem_of_dom in H. unfold get_entry. by rewrite H. Qed.

(** The loop of [add] and [subtract] builds the same matrix in whatever
    order the union of the key sets is listed. *)
Lemma combine_loop_order f A B keys :
  (∀ k, k ∈ keys ↔ k ∈ dom (elements A) ∪ dom (elements B)) →
  combine_loop f A B keys {| Rows := Rows A; Colu := Colu A; elements := ∅ |}
  = combine f A B.
Proof.
  intros Hk. apply matrix_eq.
  - by rewrite combine_Rows, combine_loop_Rows.
  - by rewrite combine_Colu, combine_loop_Colu.
  - apply map_eq. intros [i j]. rewrite combine_lookup.
    rewrite nonzero_lookup by apply combine_loop_nonzero, nonzero_empty.
    rewrite combine_loop_get, get_entry_empty.
    destruct (decide ((i, j) ∈ keys)) as [H|H]; rewrite Hk in H.
    + by rewrite decide_True.
    + by rewrite decide_False.
Qed.

Lemma product_Rows A B : Rows (product A B) = Rows A.
Proof. unfold product. by rewrite multiply_loop_Rows. Qed.

Lemma product_Colu A B : Colu (product A B) = Colu B.
Proof. unfold product. by rewrite multiply_loop_Colu. Qed.

Lemma product_nonzero A B : nonzero (product A B).
Proof. apply multiply_loop_nonzero, nonzero_empty. Qed.

Lemma product_get A B i j K :
  NoDup K → (∀ k, (i, k) ∈ dom (elements A) → k ∈ K) →
  get_entry (product A B) i j
  = if decide (0 ≤ j < Colu B) then inner_product A B i j K else 0.
Proof.
  intros HK Hcov. unfold product.
  rewrite multiply_loop_get, get_entry_empty.
  rewrite (Zsum_term_inner A B i j K HK Hcov). unfold inner_product.
  case_decide; lia.
Qed.

Lemma product_lookup A B i j K :
  NoDup K → (∀ k, (i, k) ∈ dom (elements A) → k ∈ K) →
  elements (product A B) !! (i, j)
  = if decide (0 ≤ j < Colu B) then stored (inner_product A B i j K) else None.
Proof.
  intros HK Hcov. rewrite nonzero_lookup by apply product_nonzero.
  rewrite (product_get A B i j K HK Hcov). by case_decide.
Qed.

Lemma row_columns_cover A i k : (i, k) ∈ dom (elements A) → k ∈ row_columns A i.
Proof.
  intros [v Hv]%elem_of_dom. unfold row_columns.
  apply list_elem_of_fmap. exists (i, k). split; [done|].
  apply list_elem_of_filter. split; [done|].
  apply list_elem_of_fmap. exists (i, k, v). split; [done|].
  by apply elem_of_map_to_list.
Qed.

Lemma row_columns_NoDup A i : NoDup (row_columns A i).
Proof.
  unfold row_columns. apply NoDup_fmap_2_strong.
  - intros [i1 k1] [i2 k2] [H1 _]%list_elem_of_filter [H2 _]%list_elem_of_filter.
    simpl in *. congruence.
  - apply NoDup_filter, NoDup_fst_map_to_list.
Qed.

(** ** Algebra of [add] and [subtract] on one object *)

Lemma combine_dom_subseteq f A B i j :
  (i, j) ∈ dom (elements (combine f A B)) →
  (i, j) ∈ dom (elements A) ∪ dom (elements B).
Proof.
  intros [v Hv]%elem_of_dom. rewrite combine_lookup in Hv.
  by case_decide.
Qed.

Lemma combine_sub_add A B : entrywise_equal (combine Z.sub (combine Z.add A B) B) A.
Proof.
  intros i j. rewrite combine_get.
  destruct (decide ((i, j) ∈ dom (elements (combine Z.add A B)) ∪ dom (elements B)))
    as [Hin|Hout].
  - rewrite combine_get. rewrite decide_True; [lia|].
    apply elem_of_union in Hin as [Hin|Hin].
    + by apply combine_dom_subseteq in Hin.
    + apply elem_of_union. by right.
  - apply not_elem_of_union in Hout as [HS HB].
    destruct (decide ((i, j) ∈ dom (elements A))) as [HA|HA].
    + apply not_elem_of_dom in HS. rewrite combine_lookup in HS.
      rewrite decide_True in HS by (apply elem_of_union; by left).
      rewrite (get_entry_unoccupied B i j HB), Z.add_0_r in HS.
      unfold stored in HS. by case_decide.
    + by rewrite get_entry_unoccupied.
Qed.

Lemma combine_add_comm A B :
  Rows A = Rows B → Colu A = Colu B → combine Z.add A B = combine Z.add B A.
Proof.
  intros HR HC. apply matrix_eq.
  - by rewrite !combine_Rows.
  - by rewrite !combine_Colu.
  - apply map_eq. intros [i j]. rewrite !combine_lookup.
    rewrite (Z.add_comm (get_entry A i j)).
    destruct (decide ((i, j) ∈ dom (elements A) ∪ dom (elements B))) as [H|H].
    + rewrite decide_True; [done|]. by rewrite (comm_L (∪)).
    + rewrite decide_False; [done|]. by rewrite (comm_L (∪)).
Qed.

(** Entrywise equal matrices without stored zeros store the same entries. *)
Lemma entrywise_equal_elements m1 m2 :
  nonzero m1 → nonzero m2 → entrywise_equal m1 m2 → elements m1 = elements m2.
Proof.
  intros H1 H2 He. apply map_eq. intros [i j].
  by rewrite !nonzero_lookup, He.
Qed.

Lemma allocated_result (w : world) (m : SparseMatrix) :
  heap (allocated w m) !!! fresh (dom (heap w)) = m.
Proof. unfold allocated. cbn [heap]. apply lookup_total_insert_eq. Qed.

(** A column in which [B] stores nothing contributes nothing. *)
Lemma inner_product_outside A B i j K :
  (∀ k, (k, j) ∉ dom (elements B)) → inner_product A B i j K = 0.
Proof.
  intros H. unfold inner_product. apply Zsum_zero. intros k _.
  rewrite (get_entry_unoccupied B k j (H k)). lia.
Qed.

(** ** Facts about the text primitives *)

Lemma is_digit_facts c :
  Py.is_digit c = true →
  Py.is_space c = false ∧ is_Some (Py.digit_of c)
  ∧ Ascii.eqb c "-"%char = false ∧ Ascii.eqb c "+"%char = false
  ∧ Ascii.eqb c "_"%char = false ∧ Ascii.eqb c ","%char = false
  ∧ Ascii.eqb c ")"%char = false ∧ Ascii.eqb c "="%char = false
  ∧ Ascii.eqb c Py.LF = false ∧ Ascii.eqb c Py.CR = false.
Proof.
  destruct c as [[] [] [] [] [] [] [] []]; vm_compute; intros H;
    try discriminate H; repeat split; eauto.
Qed.

Lemma digits_of_uint_digits u : Forall (λ c, Py.is_digit c = true) (Py.digits_of_uint u).
Proof. induction u; simpl; constructor; done. Qed.



Lemma is_int_space_space c : Py.is_int_space c = true → Py.is_space c = true.
Proof. destruct c as [[] [] [] [] [] [] [] []]; vm_compute; done. Qed.

Lemma not_int_space c : Py.is_space c = false → Py.is_int_space c = false.
Proof.
  intros H. destruct (Py.is_int_space c) eqn:E; [|done].
  apply is_int_space_space in E. congruence.
Qed.

Lemma drop_while_head p c s : p c = false → Py.drop_while p (c :: s) = c :: s.
Proof. intros H. simpl. by rewrite H. Qed.

(** A text that starts and ends outside the class [p] is left alone by
    [strip_by p], also when a character of the class follows it. *)
Lemma strip_by_solid p c s c' :
  p c = false → p c' = false →
  Py.strip_by p (c :: s ++ [c']) = c :: s ++ [c'].
Proof.
  intros H H'. unfold Py.strip_by. rewrite drop_while_head by done.
  rewrite app_comm_cons, rev_unit, drop_while_head by done.
  change (c' :: rev (c :: s)) with (rev [c'] ++ rev (c :: s)).
  by rewrite <- rev_app_distr, rev_involutive.
Qed.


Lemma strip_by_single p c : p c = false → Py.strip_by p [c] = [c].
Proof. intros H. unfold Py.strip_by. simpl. rewrite H. simpl. by rewrite H. Qed.


(** The two shapes of a non-empty text. *)
Lemma text_shape (s : Py.text) :
  s ≠ [] → (∃ c, s = [c]) ∨ (∃ c s' c', s = c :: s' ++ [c']).
Proof.
  destruct s as [|c s]; [done|]. intros _.
  destruct (exists_last (l := c :: s)) as (s' & c' & E); [done|].
  destruct s' as [|c0 s'].
  - left. exists c'. simpl in E. congruence.
  - right. simpl in E. exists c0, s', c'. congruence.
Qed.

Lemma strip_by_of_solid p s :
  (∀ c, Py.is_space c = false → p c = false) → solid s → Py.strip_by p s = s.
Proof.
  intros Hp [(c & -> & H)|(c & s' & c' & -> & H & H')].
  - apply strip_by_single. by apply Hp.
  - apply strip_by_solid; by apply Hp.
Qed.




Lemma int_strip_of_solid s : solid s → Py.strip_by Py.is_int_space s = s.
Proof. apply strip_by_of_solid, not_int_space. Qed.


Lemma digits_solid g :
  g ≠ [] → Forall (λ c, Py.is_digit c = true) g → solid g.
Proof.
  intros Hne Hd. destruct (text_shape g Hne) as [(c & ->)|(c & s' & c' & ->)].
  - left. exists c. split; [done|]. apply Forall_cons in Hd as [Hc _].
    by apply is_digit_facts in Hc as [? _].
  - right. exists c, s', c'. split; [done|].
    apply Forall_cons in Hd as [Hc Hd]. apply Forall_app in Hd as [_ Hd].
    apply Forall_cons in Hd as [Hc' _].
    apply is_digit_facts in Hc as [? _]. apply is_digit_facts in Hc' as [? _]. done.
Qed.

Lemma int_digits_all b g :
  Forall (λ c, Py.is_digit c = true) g → (b = true ∨ g ≠ []) →
  Py.int_digits b g = Some g.
Proof.
  intros Hd. revert b. induction Hd as [|c g Hc Hd IH]; intros b Hb; simpl.
  - destruct Hb as [->|?]; done.
  - rewrite Hc, IH; [done | by left].
Qed.

Lemma uint_of_digits_Some g :
  Forall (λ c, Py.is_digit c = true) g → is_Some (Py.uint_of_digits g).
Proof.
  induction 1 as [|c g Hc Hd [u IH]]; simpl; [eauto|].
  apply is_digit_facts in Hc as (_ & [d Hd'] & _). rewrite Hd', IH. eauto.
Qed.

(** [int] on a non-empty run of digits, with an optional minus sign. *)
Lemma int_of_digits g u :
  g ≠ [] → Forall (λ c, Py.is_digit c = true) g →
  Py.uint_of_digits g = Some u → Py.int g = Some (Z.of_uint u).
Proof.
  intros Hne Hd Hu. unfold Py.int.
  rewrite (int_strip_of_solid g) by by apply digits_solid.
  destruct g as [|c g']; [done|].
  pose proof Hd as Hd'. apply Forall_cons in Hd' as [Hc _].
  apply is_digit_facts in Hc as (_ & _ & -> & -> & _).
  rewrite int_digits_all by (done || by right). by rewrite Hu.
Qed.

Lemma minus_digits_solid g :
  g ≠ [] → Forall (λ c, Py.is_digit c = true) g → solid ("-"%char :: g).
Proof.
  intros Hne Hd.
  destruct (exists_last Hne) as (g' & c' & ->).
  right. exists "-"%char, g', c'. split; [done|]. split; [done|].
  apply Forall_app in Hd as [_ Hd]. apply Forall_cons in Hd as [Hc' _].
  by apply is_digit_facts in Hc' as [? _].
Qed.

Lemma int_of_minus_digits g u :
  g ≠ [] → Forall (λ c, Py.is_digit c = true) g →
  Py.uint_of_digits g = Some u → Py.int ("-"%char :: g) = Some (- Z.of_uint u).
Proof.
  intros Hne Hd Hu. unfold Py.int.
  rewrite int_strip_of_solid by by apply minus_digits_solid.
  change (Ascii.eqb "-" "-") with true. cbv iota.
  rewrite int_digits_all by (done || by right). by rewrite Hu.
Qed.

Lemma take_while_digits p s : Forall (λ c, p c = true) (Py.take_while p s).
Proof.
  induction s as [|c s IH]; simpl; [done|].
  destruct (p c) eqn:E; [by constructor | done].
Qed.

Lemma take_while_app p g c rest :
  Forall (λ c, p c = true) g → p c = false →
  Py.take_while p (g ++ c :: rest) = g.
Proof.
  intros Hg Hc. induction Hg as [|x g Hx Hg IH]; simpl.
  - by rewrite Hc.
  - by rewrite Hx, IH.
Qed.

Lemma drop_while_app p g c rest :
  Forall (λ c, p c = true) g → p c = false →
  Py.drop_while p (g ++ c :: rest) = c :: rest.
Proof.
  intros Hg Hc. induction Hg as [|x g Hx Hg IH]; simpl.
  - by rewrite Hc.
  - by rewrite Hx, IH.
Qed.

(** The groups of a match are runs of digits, the third one with an
    optional minus sign; converting them never raises. *)
Lemma triple_of_matched line :
  is_Some (Py.re_match_triple line) → is_Some (triple_of line).
Proof.
  unfold triple_of, Py.re_match_triple. intros [g H]. revert H.
  destruct line as [|c0 s1]; [done|].
  destruct (negb (Ascii.eqb c0 "(")); [done|].
  pose proof (take_while_digits Py.is_digit s1) as Hg1.
  destruct (Py.take_while Py.is_digit s1) as [|d1 g1] eqn:E1; [done|].
  destruct (Py.drop_while Py.is_digit s1) as [|c1 s2]; [done|].
  destruct (negb (Ascii.eqb c1 ",")); [done|].
  cbv zeta.
  pose proof (take_while_digits Py.is_digit (Py.drop_while Py.is_space s2)) as Hg2.
  destruct (Py.take_while Py.is_digit (Py.drop_while Py.is_space s2))
    as [|d2 g2] eqn:E2; [done|].
  destruct (Py.drop_while Py.is_digit (Py.drop_while Py.is_space s2))
    as [|c2 s4]; [done|].
  destruct (negb (Ascii.eqb c2 ",")); [done|].
  set (s5 := Py.drop_while Py.is_space s4).
  assert (∃ sign s6, (match s5 with
            | c :: r => if Ascii.eqb c "-" then ([c], r) else ([], s5)
            | [] => ([], s5)
            end) = (sign, s6) ∧ (sign = [] ∨ sign = ["-"%char]))
    as (sign & s6 & -> & Hsign).
  { destruct s5 as [|c r]; [by eauto|].
    destruct (Ascii.eqb c "-") eqn:Ec; [|by eauto].
    apply Ascii.eqb_eq in Ec as ->. eauto. }
  pose proof (take_while_digits Py.is_digit s6) as Hg3.
  destruct (Py.take_while Py.is_digit s6) as [|d3 g3] eqn:E3; [done|].
  destruct (Py.drop_while Py.is_digit s6) as [|c3 s7]; [done|].
  destruct (Ascii.eqb c3 ")"); [|done].
  intros _.
  destruct (uint_of_digits_Some _ Hg1) as [u1 Hu1].
  destruct (uint_of_digits_Some _ Hg2) as [u2 Hu2].
  destruct (uint_of_digits_Some _ Hg3) as [u3 Hu3].
  rewrite (int_of_digits _ u1), (int_of_digits _ u2) by done.
  destruct Hsign as [->| ->].
  - rewrite app_nil_l, (int_of_digits _ u3) by done. eauto.
  - change (["-"%char] ++ d3 :: g3) with ("-"%char :: d3 :: g3).
    rewrite (int_of_minus_digits _ u3) by done. eauto.
Qed.

(** ** The text primitives on examples *)

Example int_sign_blanks_underscores :
  Py.int (Py.chars " +1_000 ") = Some 1000
  ∧ Py.int (Py.chars "-0012") = Some (-12)
  ∧ Py.int (Py.chars "1__0") = None
  ∧ Py.int (Py.chars "_1") = None
  ∧ Py.int (Py.chars "- 1") = None
  ∧ Py.int (Py.chars "") = None.
Proof. repeat split; reflexivity. Qed.

Example separator_is_space_for_strip_only :
  Py.strip ["028"%char; "5"%char] = ["5"%char]
  ∧ Py.int ["028"%char; "5"%char] = None.
Proof. split; reflexivity. Qed.

Example readlines_translates_line_ends :
  Py.readlines (Py.chars "a" ++ [Py.CR; Py.LF] ++ Py.chars "b" ++ [Py.CR]
                ++ Py.chars "c")
  = [Py.chars "a" ++ [Py.LF]; Py.chars "b" ++ [Py.LF]; Py.chars "c"].
Proof. reflexivity. Qed.

Example split_keeps_every_field :
  Py.split "="%char (Py.chars "rows=2=3")
  = [Py.chars "rows"; Py.chars "2"; Py.chars "3"]
  ∧ Py.split "="%char (Py.chars "rows") = [Py.chars "rows"].
Proof. split; reflexivity. Qed.

Example match_is_anchored_at_the_start_only :
  Py.re_match_triple (Py.chars "(1, 1,  -2)xx")
  = Some (Py.chars "1", Py.chars "1", Py.chars "-2")
  ∧ Py.re_match_triple (Py.chars " (1,1,2)") = None
  ∧ Py.re_match_triple (Py.chars "(-1,0,5)") = None
  ∧ Py.re_match_triple (Py.chars "(1 ,0,5)") = None.
Proof. repeat split; reflexivity. Qed.

Example str_of_integers :
  Py.str 0 = Py.chars "0" ∧ Py.str 120 = Py.chars "120"
  ∧ Py.str (-45) = Py.chars "-45".
Proof. repeat split; reflexivity. Qed.

(** ** Running [read_from_file] *)

Lemma run_read_line self line h d m :
  read_line self line {| heap := <[self := m]> h; disk := d |}
  = match apply_line m line with
    | Some m' => (Return (), {| heap := <[self := m']> h; disk := d |})
    | None => (Raise wrong_format, {| heap := <[self := m]> h; disk := d |})
    end.
Proof.
  unfold read_line, apply_line.
  destruct (Py.strip line) as [|c s] eqn:Es; [done|].
  pose proof (triple_of_matched (c :: s)) as Hm. unfold triple_of in *.
  destruct (Py.re_match_triple (c :: s)) as [[[g1 g2] g3]|]; [|done].
  destruct Hm as [[[row col] value] Hm]; [by eauto|].
  unfold py_int.
  destruct (Py.int g1) as [r1|]; [|done].
  destruct (Py.int g2) as [r2|]; [|done].
  destruct (Py.int g3) as [r3|]; [|done].
  do 4 run_step.
  by rewrite lookup_total_insert_eq, insert_insert_eq.
Qed.

Lemma for_each_read_line self lines h d m :
  for_each lines (read_line self) {| heap := <[self := m]> h; disk := d |}
  = ((if (apply_lines lines m).1 then Return () else Raise wrong_format),
     {| heap := <[self := (apply_lines lines m).2]> h; disk := d |}).
Proof.
  revert m. induction lines as [|line lines IH]; intros m; [done|].
  cbn [for_each apply_lines]. rewrite run_bind, run_read_line.
  destruct (apply_line m line) as [m'|]; [apply IH | done].
Qed.

Lemma run_index_Some {X} (l : list X) i x w :
  l !! i = Some x → index l i w = (Return x, w).
Proof. intros H. unfold index. by rewrite H. Qed.

Lemma run_index_None {X} (l : list X) i w :
  l !! i = None → index l i w = (Raise IndexError, w).
Proof. intros H. unfold index. by rewrite H. Qed.

Lemma run_py_int_Some s z w : Py.int s = Some z → py_int s w = (Return z, w).
Proof. intros H. unfold py_int. by rewrite H. Qed.

Lemma run_py_int_None s w :
  Py.int s = None →
  py_int s w = (Raise (ValueError "invalid literal for int() with base 10"), w).
Proof. intros H. unfold py_int. by rewrite H. Qed.

Lemma run_read_text_Some path t w :
  disk w !! path = Some t → read_text path w = (Return t, w).
Proof. intros H. unfold read_text. by rewrite H. Qed.

Lemma run_read_text_None path w :
  disk w !! path = None → read_text path w = (Raise FileNotFoundError, w).
Proof. intros H. unfold read_text. by rewrite H. Qed.

Lemma read_from_file_run self filePath w :
  read_from_file self filePath w
  = ((if (parse_into (heap w !!! self) (disk w !! filePath)).1
      then Return () else Raise wrong_format),
     {| heap := <[self := (parse_into (heap w !!! self) (disk w !! filePath)).2]>
                  (heap w);
        disk := disk w |}).
Proof.
  unfold read_from_file, parse_into, header_value.
  rewrite run_bind, run_set_elements. cbv beta iota.
  unfold try_except.
  destruct (disk w !! filePath) as [t|] eqn:Et.
  2:{ rewrite !run_bind, run_read_text_None by done. done. }
  rewrite !run_bind, (run_read_text_Some _ t) by done. cbv beta iota zeta.
  destruct (Py.readlines t !! 0%nat) as [l0|] eqn:E0.
  2:{ rewrite !run_bind, run_index_None by done. done. }
  rewrite !run_bind, (run_index_Some _ _ l0) by done. cbv beta iota.
  destruct (Py.split "=" l0 !! 1%nat) as [f0|] eqn:F0.
  2:{ rewrite !run_bind, run_index_None by done. done. }
  rewrite !run_bind, (run_index_Some _ _ f0) by done. cbv beta iota.
  destruct (Py.int f0) as [r|] eqn:I0.
  2:{ rewrite !run_bind, run_py_int_None by done. done. }
  rewrite !run_bind, (run_py_int_Some _ r) by done. cbv beta iota.
  run_step.
  rewrite lookup_total_insert_eq, insert_insert_eq. cbn [Rows Colu elements].
  destruct (Py.readlines t !! 1%nat) as [l1|] eqn:E1.
  2:{ rewrite !run_bind, run_index_None by done. done. }
  rewrite !run_bind, (run_index_Some _ _ l1) by done. cbv beta iota.
  destruct (Py.split "=" l1 !! 1%nat) as [f1|] eqn:F1.
  2:{ rewrite !run_bind, run_index_None by done. done. }
  rewrite !run_bind, (run_index_Some _ _ f1) by done. cbv beta iota.
  destruct (Py.int f1) as [c|] eqn:I1.
  2:{ rewrite !run_bind, run_py_int_None by done. done. }
  rewrite !run_bind, (run_py_int_Some _ c) by done. cbv beta iota.
  run_step.
  rewrite lookup_total_insert_eq, insert_insert_eq. cbn [Rows Colu elements].
  rewrite for_each_read_line.
  by destruct (apply_lines _ _) as [[] m'].
Qed.

(** ** Printing integers and reading them back *)

Lemma str_nonneg z :
  0 ≤ z → ∃ u, u ≠ Decimal.Nil ∧ Py.str z = Py.digits_of_uint u
               ∧ Z.of_uint u = z.
Proof.
  intros Hz. pose proof (DecimalZ.of_to z) as Hr. unfold Py.str.
  destruct z as [|p|p]; [| |lia]; simpl in *.
  - exists (Decimal.D0 Decimal.Nil). done.
  - exists (Pos.to_uint p). split; [apply Unsigned.to_uint_nonnil | done].
Qed.

Lemma str_neg z :
  z < 0 → ∃ u, u ≠ Decimal.Nil ∧ Py.str z = "-"%char :: Py.digits_of_uint u
               ∧ - Z.of_uint u = z.
Proof.
  intros Hz. pose proof (DecimalZ.of_to z) as Hr. unfold Py.str.
  destruct z as [|p|p]; [lia|lia|]; simpl in *.
  exists (Pos.to_uint p). split; [apply Unsigned.to_uint_nonnil | done].
Qed.




Lemma is_digit_plain c : Py.is_digit c = true → plain c = true.
Proof.
  intros (_ & _ & _ & _ & _ & _ & _ & H1 & H2 & H3)%is_digit_facts.
  unfold plain. by rewrite H1, H2, H3.
Qed.

Lemma str_plain z : Forall (λ c, plain c = true) (Py.str z).
Proof.
  destruct (Z.lt_ge_cases z 0) as [Hz|Hz].
  - destruct (str_neg z Hz) as (u & Hu & -> & _).
    constructor; [done|].
    eapply Forall_impl; [apply digits_of_uint_digits | apply is_digit_plain].
  - destruct (str_nonneg z Hz) as (u & Hu & -> & _).
    eapply Forall_impl; [apply digits_of_uint_digits | apply is_digit_plain].
Qed.

(** ** Lines of a text *)


Lemma plain_not_LF c : plain c = true → Ascii.eqb c Py.LF = false.
Proof.
  unfold plain. destruct (Ascii.eqb c Py.CR), (Ascii.eqb c Py.LF); done.
Qed.



Lemma keep_lines_line l rest :
  Forall (λ c, Ascii.eqb c Py.LF = false) l →
  Py.keep_lines (l ++ Py.LF :: rest) = (l ++ [Py.LF]) :: Py.keep_lines rest.
Proof.
  induction 1 as [|c l Hc Hl IH]; simpl; [done|]. by rewrite Hc, IH.
Qed.

Lemma keep_lines_last l :
  l ≠ [] → Forall (λ c, Ascii.eqb c Py.LF = false) l → Py.keep_lines l = [l].
Proof.
  intros Hne Hl. induction Hl as [|c l Hc Hl IH]; [done|]. simpl. rewrite Hc.
  destruct l as [|c' l']; [done|]. by rewrite IH.
Qed.

Lemma keep_lines_join output :
  Forall (λ l, l ≠ [] ∧ Forall (λ c, Ascii.eqb c Py.LF = false) l) output →
  Py.keep_lines (join_lines output) = terminated output.
Proof.
  induction 1 as [|l ls [Hne Hl] Hls IH]; [done|].
  destruct ls as [|l' ls'].
  - simpl. by apply keep_lines_last.
  - change (join_lines (l :: l' :: ls')) with (l ++ Py.LF :: join_lines (l' :: ls')).
    rewrite keep_lines_line by done. by rewrite IH.
Qed.

Lemma split_no_sep sep s :
  Forall (λ c, Ascii.eqb c sep = false) s → Py.split sep s = [s].
Proof. induction 1 as [|c s Hc Hs IH]; simpl; [done|]. by rewrite Hc, IH. Qed.

(** ** Entry lines *)

Lemma take_drop_while p s : Py.take_while p s ++ Py.drop_while p s = s.
Proof.
  induction s as [|c s IH]; simpl; [done|].
  destruct (p c); simpl; [by rewrite IH | done].
Qed.

(** The scan agrees with the pattern.  Completeness: every text made of an
    opening parenthesis, digits, a comma, white space, digits, a comma,
    white space, an optional minus sign, digits and a closing parenthesis
    is matched, with these groups, whatever follows. *)
Lemma re_match_triple_complete g1 ws1 g2 ws2 sign g3 rest :
  g1 ≠ [] → Forall (λ c, Py.is_digit c = true) g1 →
  g2 ≠ [] → Forall (λ c, Py.is_digit c = true) g2 →
  g3 ≠ [] → Forall (λ c, Py.is_digit c = true) g3 →
  Forall (λ c, Py.is_space c = true) ws1 →
  Forall (λ c, Py.is_space c = true) ws2 →
  sign = [] ∨ sign = ["-"%char] →
  Py.re_match_triple
    ("("%char :: g1 ++ ","%char :: ws1 ++ g2 ++ ","%char :: ws2
      ++ sign ++ g3 ++ ")"%char :: rest)
  = Some (g1, g2, sign ++ g3).
Proof.
  intros N1 D1 N2 D2 N3 D3 W1 W2 Hsign. unfold Py.re_match_triple.
  change (negb (Ascii.eqb "(" "(")) with false. cbv iota.
  rewrite take_while_app, drop_while_app by done.
  destruct g1 as [|d1 g1]; [done|].
  change (negb (Ascii.eqb "," ",")) with false. cbv iota zeta.
  destruct g2 as [|d2 g2]; [done|].
  pose proof D2 as D2'. apply Forall_cons in D2' as [Hd2 _].
  apply is_digit_facts in Hd2 as (Hsp2 & _).
  rewrite <- (app_comm_cons g2), (drop_while_app Py.is_space ws1) by done.
  rewrite (app_comm_cons g2), take_while_app, drop_while_app by done.
  change (negb (Ascii.eqb "," ",")) with false. cbv iota.
  destruct g3 as [|d3 g3]; [done|].
  pose proof D3 as D3'. apply Forall_cons in D3' as [Hd3 _].
  apply is_digit_facts in Hd3 as (Hsp & _ & Hm & _).
  destruct Hsign as [->| ->].
  - rewrite app_nil_l, <- (app_comm_cons g3).
    rewrite (drop_while_app Py.is_space ws2) by done.
    rewrite Hm. rewrite app_comm_cons, take_while_app, drop_while_app by done.
    done.
  - change (["-"%char] ++ (d3 :: g3) ++ ")"%char :: rest)
      with ("-"%char :: (d3 :: g3) ++ ")"%char :: rest).
    rewrite (drop_while_app Py.is_space ws2) by done.
    rewrite Ascii.eqb_refl. cbv beta iota zeta.
    rewrite take_while_app, drop_while_app by done.
    done.
Qed.

(** Soundness: a matched line has that shape, and the groups are its
    three runs of digits, the third one with its sign. *)
Lemma re_match_triple_sound line g1 g2 g3 :
  Py.re_match_triple line = Some (g1, g2, g3) →
  ∃ ws1 ws2 sign g3' rest,
    line = "("%char :: g1 ++ ","%char :: ws1 ++ g2 ++ ","%char :: ws2
             ++ sign ++ g3' ++ ")"%char :: rest
    ∧ g3 = sign ++ g3'
    ∧ (g1 ≠ [] ∧ Forall (λ c, Py.is_digit c = true) g1)
    ∧ (g2 ≠ [] ∧ Forall (λ c, Py.is_digit c = true) g2)
    ∧ (g3' ≠ [] ∧ Forall (λ c, Py.is_digit c = true) g3')
    ∧ Forall (λ c, Py.is_space c = true) ws1
    ∧ Forall (λ c, Py.is_space c = true) ws2
    ∧ (sign = [] ∨ sign = ["-"%char]).
Proof.
  unfold Py.re_match_triple.
  destruct line as [|c0 s1]; [done|].
  destruct (Ascii.eqb c0 "(") eqn:E0; [|done]. apply Ascii.eqb_eq in E0 as ->.
  cbv iota beta. cbn [negb].
  pose proof (take_while_digits Py.is_digit s1) as Hg1.
  pose proof (take_drop_while Py.is_digit s1) as T1.
  destruct (Py.take_while Py.is_digit s1) as [|d1 g1'] eqn:E1; [done|].
  destruct (Py.drop_while Py.is_digit s1) as [|c1 s2]; [done|].
  destruct (Ascii.eqb c1 ",") eqn:Ec1; [|done]. apply Ascii.eqb_eq in Ec1 as ->.
  cbn [negb]. cbv zeta.
  pose proof (take_while_digits Py.is_space s2) as Hw1.
  pose proof (take_drop_while Py.is_space s2) as T2.
  set (s3 := Py.drop_while Py.is_space s2) in *.
  pose proof (take_while_digits Py.is_digit s3) as Hg2.
  pose proof (take_drop_while Py.is_digit s3) as T3.
  destruct (Py.take_while Py.is_digit s3) as [|d2 g2'] eqn:E2; [done|].
  destruct (Py.drop_while Py.is_digit s3) as [|c2 s4]; [done|].
  destruct (Ascii.eqb c2 ",") eqn:Ec2; [|done]. apply Ascii.eqb_eq in Ec2 as ->.
  cbn [negb].
  pose proof (take_while_digits Py.is_space s4) as Hw2.
  pose proof (take_drop_while Py.is_space s4) as T4.
  set (s5 := Py.drop_while Py.is_space s4) in *.
  assert (∃ sign s6, (match s5 with
            | c :: r => if Ascii.eqb c "-" then ([c], r) else ([], s5)
            | [] => ([], s5)
            end) = (sign, s6) ∧ (sign = [] ∨ sign = ["-"%char])
            ∧ s5 = sign ++ s6)
    as (sign & s6 & -> & Hsign & T5).
  { destruct s5 as [|c r]; [by eauto 6|].
    destruct (Ascii.eqb c "-") eqn:Ec; [|by eauto 6].
    apply Ascii.eqb_eq in Ec as ->. eauto 6. }
  pose proof (take_while_digits Py.is_digit s6) as Hg3.
  pose proof (take_drop_while Py.is_digit s6) as T6.
  destruct (Py.take_while Py.is_digit s6) as [|d3 g3'] eqn:E3; [done|].
  destruct (Py.drop_while Py.is_digit s6) as [|c3 s7]; [done|].
  destruct (Ascii.eqb c3 ")") eqn:Ec3; [|done]. apply Ascii.eqb_eq in Ec3 as ->.
  intros [= <- <- <-].
  exists (Py.take_while Py.is_space s2), (Py.take_while Py.is_space s4),
    sign, (d3 :: g3'), s7.
  split.
  { f_equal. by rewrite T6, <- T5, T4, T3, T2, T1. }
  repeat split; done.
Qed.

Lemma entry_line_shape i j v :
  entry_line (i, j, v)
  = "("%char :: Py.str i ++ ","%char :: " "%char :: Py.str j
      ++ ","%char :: " "%char :: Py.str v ++ [")"%char].
Proof.
  unfold entry_line. cbn [Py.chars list_ascii_of_string]. reflexivity.
Qed.



Lemma entry_line_plain e : Forall (λ c, plain c = true) (entry_line e).
Proof.
  destruct e as [[i j] v]. rewrite entry_line_shape.
  repeat first [ apply Forall_cons; split; [done|]
               | apply Forall_app; split; [apply str_plain|] ].
  done.
Qed.

Lemma entry_line_nonempty e : entry_line e ≠ [].
Proof. destruct e as [[i j] v]. by rewrite entry_line_shape. Qed.



(** ** Reading back a serialised matrix *)
















(** ** No stored zero: every operation keeps the invariant *)

Lemma apply_line_nonzero m line m' :
  nonzero m → apply_line m line = Some m' → nonzero m'.
Proof.
  unfold apply_line. intros Hm.
  destruct (Py.strip line); [by intros [= <-]|].
  destruct (triple_of _) as [[[row col] value]|]; [|done].
  intros [= <-]. by apply set_entry_nonzero.
Qed.

Lemma apply_lines_nonzero lines m : nonzero m → nonzero (apply_lines lines m).2.
Proof.
  revert m. induction lines as [|line lines IH]; intros m Hm; [done|].
  cbn [apply_lines]. destruct (apply_line m line) as [m'|] eqn:E; [|done].
  by eapply IH, apply_line_nonzero.
Qed.

Lemma parse_into_nonzero m file : nonzero (parse_into m file).2.
Proof.
  unfold parse_into. destruct file as [t|]; [|apply nonzero_empty].
  cbv zeta. destruct (header_value _ 0) as [r|]; [|apply nonzero_empty].
  destruct (header_value _ 1) as [c|]; [|apply nonzero_empty].
  apply apply_lines_nonzero, nonzero_empty.
Qed.

Lemma all_objects_insert P (w : world) l m d :
  all_objects P w → P m →
  all_objects P {| heap := <[l := m]> (heap w); disk := d |}.
Proof. intros Hw Hm. unfold all_objects. cbn [heap]. by apply map_Forall_insert_2. Qed.

Lemma all_objects_lookup_total (w : world) l :
  all_objects nonzero w → nonzero (heap w !!! l).
Proof.
  intros Hw. rewrite lookup_total_alt.
  destruct (heap w !! l) as [m|] eqn:E; [by eapply Hw|].
  apply (nonzero_empty 0 0).
Qed.

Lemma read_from_file_nonzero self filePath w :
  all_objects nonzero w → all_objects nonzero (read_from_file self filePath w).2.
Proof.
  intros Hw. rewrite read_from_file_run. cbn [snd].
  apply all_objects_insert; [done | apply parse_into_nonzero].
Qed.

Lemma read_from_file_live self filePath w l :
  l = self ∨ l ∈ dom (heap w) → l ∈ dom (heap (read_from_file self filePath w).2).
Proof.
  intros Hl. rewrite read_from_file_run. cbn [snd heap].
  rewrite dom_insert. set_solver.
Qed.

Lemma arithmetic_nonzero (w : world) (self other : loc) o w' :
  self ∈ dom (heap w) → other ∈ dom (heap w) → all_objects nonzero w →
  add self other w = (o, w') ∨ subtract self other w = (o, w')
  ∨ multiply self other w = (o, w') →
  all_objects nonzero w'.
Proof.
  intros Hs Ho Hw.
  rewrite add_run, subtract_run, multiply_run by done.
  intros [H|[H|H]]; case_decide; inversion H; subst; try done;
    apply all_objects_insert; try done;
    apply combine_nonzero || apply product_nonzero.
Qed.

Lemma write_result_heap result path w : heap (write_result result path w).2 = heap w.
Proof. reflexivity. Qed.

Lemma process_file_nonzero self input output operation other w :
  all_objects nonzero w →
  all_objects nonzero (process_file self input output operation other w).2.
Proof.
  intros Hw. unfold process_file. rewrite run_bind.
  pose proof (read_from_file_nonzero self input w Hw) as H1.
  pose proof (read_from_file_live self input w self (or_introl eq_refl)) as L1.
  destruct (read_from_file self input w) as [[[]|e] w1]; [|done].
  cbn [snd] in *. rewrite run_bind, run_new. cbv beta iota.
  set (other_matrix := fresh (dom (heap w1))).
  set (w2 := {| heap := <[other_matrix := init_matrix]> (heap w1); disk := disk w1 |}).
  assert (H2 : all_objects nonzero w2).
  { apply all_objects_insert; [done | apply (nonzero_empty 0 0)]. }
  assert (L2 : self ∈ dom (heap w2) ∧ other_matrix ∈ dom (heap w2)).
  { unfold w2. cbn [heap]. rewrite dom_insert. set_solver. }
  rewrite run_bind.
  pose proof (read_from_file_nonzero other_matrix other w2 H2) as H3.
  pose proof (read_from_file_live other_matrix other w2 self (or_intror (proj1 L2))) as L3.
  pose proof (read_from_file_live other_matrix other w2 other_matrix
                (or_introl eq_refl)) as L3'.
  destruct (read_from_file other_matrix other w2) as [[[]|e] w3]; [|done].
  cbn [snd] in *. rewrite run_bind.
  assert (Hop : ∀ o w', add self other_matrix w3 = (o, w')
                        ∨ subtract self other_matrix w3 = (o, w')
                        ∨ multiply self other_matrix w3 = (o, w') →
                        all_objects nonzero w')
    by (intros o w'; by apply arithmetic_nonzero).
  assert (Hfin : ∀ (m : M loc), (∀ o w', m w3 = (o, w') → all_objects nonzero w') →
            all_objects nonzero
              (match m w3 with
               | (Return a, w') => write_result a output w'
               | (Raise e, w') => (Raise e, w')
               end).2).
  { intros m Hm. specialize (Hm (m w3).1 (m w3).2).
    destruct (m w3) as [[r|e] w4]; cbn [fst snd] in *.
    - unfold all_objects. rewrite write_result_heap. by apply Hm.
    - by apply Hm. }
  repeat case_decide.
  - apply Hfin. intros o w' E. apply (Hop o w'). by left.
  - apply Hfin. intros o w' E. apply (Hop o w'). right. by left.
  - apply Hfin. intros o w' E. apply (Hop o w'). right. by right.
  - done.
Qed.

Lemma run_call_nonzero (w : world) (c : call) :
  live w c → all_objects nonzero w → all_objects nonzero (run_call c w).2.
Proof.
  intros Hl Hw. destruct c; cbn [run_call live] in *.
  - rewrite run_bind, run_new. cbn [snd].
    apply all_objects_insert; [done | apply (nonzero_empty 0 0)].
  - by apply read_from_file_nonzero.
  - done.
  - rewrite run_setElement. cbn [snd]. apply all_objects_insert; [done|].
    by apply set_entry_nonzero, all_objects_lookup_total.
  - rewrite run_bind. destruct Hl as [Hs Ho].
    pose proof (arithmetic_nonzero w self other (add self other w).1
                  (add self other w).2 Hs Ho Hw) as H.
    destruct (add self other w) as [[r|e] w']; apply H; by left.
  - rewrite run_bind. destruct Hl as [Hs Ho].
    pose proof (arithmetic_nonzero w self other (subtract self other w).1
                  (subtract self other w).2 Hs Ho Hw) as H.
    destruct (subtract self other w) as [[r|e] w']; apply H; right; by left.
  - rewrite run_bind. destruct Hl as [Hs Ho].
    pose proof (arithmetic_nonzero w self other (multiply self other w).1
                  (multiply self other w).2 Hs Ho Hw) as H.
    destruct (multiply self other w) as [[r|e] w']; apply H; right; by right.
  - by apply process_file_nonzero.
Qed.

Lemma reachable_nonzero w : reachable w → all_objects nonzero w.
Proof.
  induction 1 as [d|w c Hr IH Hl|w d Hr IH].
  - unfold all_objects. cbn [heap]. apply map_Forall_empty.
  - by apply run_call_nonzero.
  - done.
Qed.

(** ** Lines before an offending line *)

Lemma triple_of_nil : triple_of [] = None.
Proof. reflexivity. Qed.

Lemma apply_lines_matched pre m :
  Forall (λ l, blank l ∨ is_Some (Py.re_match_triple (Py.strip l))) pre →
  apply_lines pre m = (true, set_entries m (matched_triples pre)).
Proof.
  intros H. revert m. induction H as [|l pre Hl Hpre IH]; intros m; [done|].
  cbn [apply_lines]. unfold matched_triples, apply_line in *. cbn [omap list_omap].
  destruct Hl as [Hl|Hl].
  - unfold blank in Hl. rewrite Hl, triple_of_nil. apply IH.
  - apply triple_of_matched in Hl as [[[row col] value] Ht].
    rewrite Ht. destruct (Py.strip l) as [|c s]; [done|]. apply IH.
Qed.



Lemma apply_lines_blank l lines m :
  blank l → apply_lines (l :: lines) m = apply_lines lines m.
Proof. intros Hl. cbn [apply_lines]. unfold apply_line. by rewrite Hl. Qed.

Lemma header_value_no_sep lines l0 :
  lines !! 0%nat = Some l0 →
  Forall (λ c, Ascii.eqb c "="%char = false) l0 →
  header_value lines 0 = None.
Proof.
  intros H0 Hl. unfold header_value. rewrite H0.
  by rewrite split_no_sep.
Qed.

Lemma header_value_empty n : header_value [] n = None.
Proof. by destruct n. Qed.

(** * The claims of the specification *)

(** ** Addition *)

(** C1. For operands with the same dimensions, [add] returns a new matrix
    with these dimensions.  At every coordinate occupied in one of the
    operands its entry is the sum of the two entries, committed through the
    setter, so that nothing is stored when the sum is zero; a coordinate
    occupied in neither operand is absent from the result. *)
Theorem add_union_of_entries (w : world) (self other : loc) :
  self ∈ dom (heap w) → other ∈ dom (heap w) →
  Rows (heap w !!! self) = Rows (heap w !!! other) →
  Colu (heap w !!! self) = Colu (heap w !!! other) →
  ∃ result w',
    add self other w = (Return result, w')
    ∧ Rows (heap w' !!! result) = Rows (heap w !!! self)
    ∧ Colu (heap w' !!! result) = Colu (heap w !!! self)
    ∧ ∀ i j,
        ((i, j) ∈ dom (elements (heap w !!! self))
                  ∪ dom (elements (heap w !!! other)) →
         get_entry (heap w' !!! result) i j
         = get_entry (heap w !!! self) i j + get_entry (heap w !!! other) i j
         ∧ elements (heap w' !!! result) !! (i, j)
           = stored (get_entry (heap w !!! self) i j
                     + get_entry (heap w !!! other) i j))
        ∧ ((i, j) ∉ dom (elements (heap w !!! self))
                    ∪ dom (elements (heap w !!! other)) →
           elements (heap w' !!! result) !! (i, j) = None).
Proof.
  intros Hs Ho HR HC. rewrite add_run by done.
  rewrite decide_False by tauto.
  eexists _, _. split; [done|]. unfold allocated. cbn [heap].
  rewrite lookup_total_insert_eq.
  split; [apply combine_Rows|]. split; [apply combine_Colu|].
  intros i j. rewrite combine_get, combine_lookup. split; intros H.
  - by rewrite !decide_True.
  - by rewrite decide_False.
Qed.

Lemma scenario_live :
  1%positive ∈ dom (heap scenario) ∧ 2%positive ∈ dom (heap scenario).
Proof. split; apply elem_of_dom; eexists; reflexivity. Defined.

Lemma add_union_of_entries_witness :
  (1%positive ∈ dom (heap scenario) ∧ 2%positive ∈ dom (heap scenario)
   ∧ Rows (heap scenario !!! 1%positive) = Rows (heap scenario !!! 2%positive)
   ∧ Colu (heap scenario !!! 1%positive) = Colu (heap scenario !!! 2%positive))
  ∧ ∃ result w',
    add 1 2 scenario = (Return result, w')
    ∧ Rows (heap w' !!! result) = Rows (heap scenario !!! 1%positive)
    ∧ Colu (heap w' !!! result) = Colu (heap scenario !!! 1%positive)
    ∧ ∀ i j,
        ((i, j) ∈ dom (elements (heap scenario !!! 1%positive))
                  ∪ dom (elements (heap scenario !!! 2%positive)) →
         get_entry (heap w' !!! result) i j
         = get_entry (heap scenario !!! 1%positive) i j
           + get_entry (heap scenario !!! 2%positive) i j
         ∧ elements (heap w' !!! result) !! (i, j)
           = stored (get_entry (heap scenario !!! 1%positive) i j
                     + get_entry (heap scenario !!! 2%positive) i j))
        ∧ ((i, j) ∉ dom (elements (heap scenario !!! 1%positive))
                    ∪ dom (elements (heap scenario !!! 2%positive)) →
           elements (heap w' !!! result) !! (i, j) = None).
Proof.
  split.
  - split; [apply scenario_live|]. split; [apply scenario_live|].
    split; reflexivity.
  - apply (add_union_of_entries scenario 1 2).
    + apply scenario_live.
    + apply scenario_live.
    + reflexivity.
    + reflexivity.
Defined.

(** ** Multiplication *)

(** C2. When the column count of the left operand is the row count of the
    right one, [multiply] returns a new matrix with the rows of the left and
    the columns of the right operand.  Its entry at a coordinate [(i, j)],
    [j] a column of the result, is the sum over [k] of
    [A.get(i,k) * B.get(k,j)], where [k] ranges over any duplicate-free list
    of inner indices containing the occupied columns of row [i] of the left
    operand; the total is committed through the setter, so a zero total is
    not stored, and nothing is stored outside the swept columns.  When the
    right operand stores its entries inside its declared columns, the
    equation holds at every coordinate whatsoever. *)
Theorem multiply_inner_products (w : world) (self other : loc) :
  self ∈ dom (heap w) → other ∈ dom (heap w) →
  Colu (heap w !!! self) = Rows (heap w !!! other) →
  ∃ result w',
    multiply self other w = (Return result, w')
    ∧ Rows (heap w' !!! result) = Rows (heap w !!! self)
    ∧ Colu (heap w' !!! result) = Colu (heap w !!! other)
    ∧ (∀ i j K,
         0 ≤ j < Colu (heap w !!! other) →
         NoDup K →
         (∀ k, (i, k) ∈ dom (elements (heap w !!! self)) → k ∈ K) →
         get_entry (heap w' !!! result) i j
         = inner_product (heap w !!! self) (heap w !!! other) i j K
         ∧ elements (heap w' !!! result) !! (i, j)
           = stored (inner_product (heap w !!! self) (heap w !!! other) i j K))
    ∧ (∀ i j, ¬ 0 ≤ j < Colu (heap w !!! other) →
         elements (heap w' !!! result) !! (i, j) = None)
    ∧ ((∀ k j v, elements (heap w !!! other) !! (k, j) = Some v →
          0 ≤ j < Colu (heap w !!! other)) →
       ∀ i j K,
         NoDup K →
         (∀ k, (i, k) ∈ dom (elements (heap w !!! self)) → k ∈ K) →
         get_entry (heap w' !!! result) i j
         = inner_product (heap w !!! self) (heap w !!! other) i j K
         ∧ elements (heap w' !!! result) !! (i, j)
           = stored (inner_product (heap w !!! self) (heap w !!! other) i j K)).
Proof.
  intros Hs Ho HD. rewrite multiply_run by done.
  rewrite decide_False by (intros H; by apply H).
  eexists _, _. split; [done|]. unfold allocated. cbn [heap].
  rewrite lookup_total_insert_eq.
  split; [apply product_Rows|]. split; [apply product_Colu|].
  split; [|split].
  - intros i j K Hj HK Hcov.
    rewrite (product_get _ _ i j K HK Hcov), (product_lookup _ _ i j K HK Hcov).
    by rewrite !decide_True.
  - intros i j Hj.
    rewrite (product_lookup _ _ i j _ (row_columns_NoDup _ i)
               (row_columns_cover _ i)).
    by rewrite decide_False.
  - intros Hin i j K HK Hcov.
    rewrite (product_get _ _ i j K HK Hcov), (product_lookup _ _ i j K HK Hcov).
    case_decide as Hj; [done|].
    rewrite inner_product_outside; [done|].
    intros k [v Hv]%elem_of_dom. by apply Hin in Hv.
Qed.

Lemma multiply_inner_products_witness :
  (1%positive ∈ dom (heap scenario) ∧ 2%positive ∈ dom (heap scenario)
   ∧ Colu (heap scenario !!! 1%positive) = Rows (heap scenario !!! 2%positive))
  ∧ ∃ result w',
    multiply 1 2 scenario = (Return result, w')
    ∧ Rows (heap w' !!! result) = Rows (heap scenario !!! 1%positive)
    ∧ Colu (heap w' !!! result) = Colu (heap scenario !!! 2%positive)
    ∧ (∀ i j K,
         0 ≤ j < Colu (heap scenario !!! 2%positive) →
         NoDup K →
         (∀ k, (i, k) ∈ dom (elements (heap scenario !!! 1%positive)) → k ∈ K) →
         get_entry (heap w' !!! result) i j
         = inner_product (heap scenario !!! 1%positive)
             (heap scenario !!! 2%positive) i j K
         ∧ elements (heap w' !!! result) !! (i, j)
           = stored (inner_product (heap scenario !!! 1%positive)
                       (heap scenario !!! 2%positive) i j K))
    ∧ (∀ i j, ¬ 0 ≤ j < Colu (heap scenario !!! 2%positive) →
         elements (heap w' !!! result) !! (i, j) = None)
    ∧ ((∀ k j v, elements (heap scenario !!! 2%positive) !! (k, j) = Some v →
          0 ≤ j < Colu (heap scenario !!! 2%positive)) →
       ∀ i j K,
         NoDup K →
         (∀ k, (i, k) ∈ dom (elements (heap scenario !!! 1%positive)) → k ∈ K) →
         get_entry (heap w' !!! result) i j
         = inner_product (heap scenario !!! 1%positive)
             (heap scenario !!! 2%positive) i j K
         ∧ elements (heap w' !!! result) !! (i, j)
           = stored (inner_product (heap scenario !!! 1%positive)
                       (heap scenario !!! 2%positive) i j K)).
Proof.
  split.
  - split; [apply scenario_live|]. split; [apply scenario_live | reflexivity].
  - apply (multiply_inner_products scenario 1 2).
    + apply scenario_live.
    + apply scenario_live.
    + reflexivity.
Defined.

(** ** Dimension checks *)

(** C4. [add] and [subtract] raise their dimension error exactly when the
    row counts or the column counts of the operands differ, [multiply]
    exactly when the column count of the left operand differs from the row
    count of the right one; they raise nothing else, leave the world as it
    was when they raise, and return a matrix when the dimensions fit. *)
Theorem dimension_mismatch_errors (w : world) (self other : loc) :
  self ∈ dom (heap w) → other ∈ dom (heap w) →
  (∀ e, raises (add self other) w e
        ↔ (Rows (heap w !!! self) ≠ Rows (heap w !!! other)
           ∨ Colu (heap w !!! self) ≠ Colu (heap w !!! other))
          ∧ e = mismatch_addition)
  ∧ (∀ e, raises (subtract self other) w e
          ↔ (Rows (heap w !!! self) ≠ Rows (heap w !!! other)
             ∨ Colu (heap w !!! self) ≠ Colu (heap w !!! other))
            ∧ e = mismatch_subtraction)
  ∧ (∀ e, raises (multiply self other) w e
          ↔ Colu (heap w !!! self) ≠ Rows (heap w !!! other)
            ∧ e = mismatch_multiplication)
  ∧ (Rows (heap w !!! self) ≠ Rows (heap w !!! other)
     ∨ Colu (heap w !!! self) ≠ Colu (heap w !!! other) →
     add self other w = (Raise mismatch_addition, w)
     ∧ subtract self other w = (Raise mismatch_subtraction, w))
  ∧ (Colu (heap w !!! self) ≠ Rows (heap w !!! other) →
     multiply self other w = (Raise mismatch_multiplication, w))
  ∧ (Rows (heap w !!! self) = Rows (heap w !!! other) →
     Colu (heap w !!! self) = Colu (heap w !!! other) →
     (∃ r w', add self other w = (Return r, w'))
     ∧ (∃ r w', subtract self other w = (Return r, w')))
  ∧ (Colu (heap w !!! self) = Rows (heap w !!! other) →
     ∃ r w', multiply self other w = (Return r, w')).
Proof.
  intros Hs Ho. unfold raises.
  rewrite add_run, subtract_run, multiply_run by done.
  repeat split.
  - destruct H as [w' H]. by case_decide.
  - destruct H as [w' H]. case_decide; congruence.
  - intros [H ->]. exists w. by rewrite decide_True.
  - destruct H as [w' H]. by case_decide.
  - destruct H as [w' H]. case_decide; congruence.
  - intros [H ->]. exists w. by rewrite decide_True.
  - destruct H as [w' H]. by case_decide.
  - destruct H as [w' H]. case_decide; congruence.
  - intros [H ->]. exists w. by rewrite decide_True.
  - by rewrite decide_True.
  - by rewrite decide_True.
  - intros H. by rewrite decide_True.
  - rewrite decide_False by tauto. eauto.
  - rewrite decide_False by tauto. eauto.
  - intros H. rewrite decide_False by (intros H'; by apply H'). eauto.
Qed.

Lemma dimension_mismatch_errors_witness :
  (1%positive ∈ dom (heap scenario) ∧ 2%positive ∈ dom (heap scenario))
  ∧ (∀ e, raises (add 1 2) scenario e
        ↔ (Rows (heap scenario !!! 1%positive) ≠ Rows (heap scenario !!! 2%positive)
           ∨ Colu (heap scenario !!! 1%positive) ≠ Colu (heap scenario !!! 2%positive))
          ∧ e = mismatch_addition)
  ∧ (Colu (heap scenario !!! 1%positive) = Rows (heap scenario !!! 2%positive) →
     ∃ r w', multiply 1 2 scenario = (Return r, w')).
Proof.
  pose proof (dimension_mismatch_errors scenario 1 2
                (proj1 scenario_live) (proj2 scenario_live)) as H.
  split; [apply scenario_live|]. split; [apply H | apply H].
Defined.

(** ** Algebraic laws *)

(** C7. For operands with the same dimensions, subtracting the right
    operand from the sum gives back a matrix with the dimensions of the left
    operand that is entrywise equal to it (and stores the same entries when
    the left operand stores no zero), and [add] commutes: the two sums are
    equal matrices. *)
Theorem add_subtract_inverse_and_commutative (w : world) (self other : loc) :
  self ∈ dom (heap w) → other ∈ dom (heap w) →
  Rows (heap w !!! self) = Rows (heap w !!! other) →
  Colu (heap w !!! self) = Colu (heap w !!! other) →
  ∃ sum w1 diff w2 sum' w1',
    add self other w = (Return sum, w1)
    ∧ subtract sum other w1 = (Return diff, w2)
    ∧ add other self w = (Return sum', w1')
    ∧ Rows (heap w2 !!! diff) = Rows (heap w !!! self)
    ∧ Colu (heap w2 !!! diff) = Colu (heap w !!! self)
    ∧ entrywise_equal (heap w2 !!! diff) (heap w !!! self)
    ∧ (nonzero (heap w !!! self) → heap w2 !!! diff = heap w !!! self)
    ∧ heap w1 !!! sum = heap w1' !!! sum'
    ∧ entrywise_equal (heap w1 !!! sum) (heap w1' !!! sum').
Proof.
  intros Hs Ho HR HC.
  set (A := heap w !!! self) in *. set (B := heap w !!! other) in *.
  set (w1 := allocated w (combine Z.add A B)).
  assert (Hsum : heap w1 !!! fresh (dom (heap w)) = combine Z.add A B)
    by apply allocated_result.
  assert (Hother : heap w1 !!! other = B).
  { unfold w1, allocated. cbn [heap].
    rewrite lookup_total_insert_ne; [done|]. by apply fresh_loc_ne. }
  assert (Hlive1 : fresh (dom (heap w)) ∈ dom (heap w1) ∧ other ∈ dom (heap w1)).
  { unfold w1, allocated. cbn [heap]. rewrite dom_insert. set_solver. }
  exists (fresh (dom (heap w))), w1, (fresh (dom (heap w1))),
    (allocated w1 (combine Z.sub (combine Z.add A B) B)),
    (fresh (dom (heap w))), (allocated w (combine Z.add B A)).
  split. { rewrite add_run by done. fold A B. by rewrite decide_False by tauto. }
  split.
  { rewrite subtract_run by apply Hlive1. rewrite Hsum, Hother.
    rewrite decide_False; [done|].
    rewrite combine_Rows, combine_Colu. tauto. }
  split.
  { rewrite add_run by done. fold A B.
    rewrite decide_False; [done|]. intros [?|?]; congruence. }
  rewrite !allocated_result, Hsum.
  split; [by rewrite !combine_Rows|]. split; [by rewrite !combine_Colu|].
  split; [apply combine_sub_add|]. split.
  - intros HA. apply matrix_eq.
    + by rewrite !combine_Rows.
    + by rewrite !combine_Colu.
    + apply entrywise_equal_elements;
        [apply combine_nonzero | done | apply combine_sub_add].
  - split; [by apply combine_add_comm|].
    intros i j. by rewrite combine_add_comm.
Qed.

Lemma add_subtract_inverse_and_commutative_witness :
  (1%positive ∈ dom (heap scenario) ∧ 2%positive ∈ dom (heap scenario)
   ∧ Rows (heap scenario !!! 1%positive) = Rows (heap scenario !!! 2%positive)
   ∧ Colu (heap scenario !!! 1%positive) = Colu (heap scenario !!! 2%positive))
  ∧ ∃ sum w1 diff w2 sum' w1',
      add 1 2 scenario = (Return sum, w1)
      ∧ subtract sum 2 w1 = (Return diff, w2)
      ∧ add 2 1 scenario = (Return sum', w1')
      ∧ Rows (heap w2 !!! diff) = Rows (heap scenario !!! 1%positive)
      ∧ Colu (heap w2 !!! diff) = Colu (heap scenario !!! 1%positive)
      ∧ entrywise_equal (heap w2 !!! diff) (heap scenario !!! 1%positive)
      ∧ (nonzero (heap scenario !!! 1%positive) →
         heap w2 !!! diff = heap scenario !!! 1%positive)
      ∧ heap w1 !!! sum = heap w1' !!! sum'
      ∧ entrywise_equal (heap w1 !!! sum) (heap w1' !!! sum').
Proof.
  split.
  - split; [apply scenario_live|]. split; [apply scenario_live|].
    split; reflexivity.
  - apply (add_subtract_inverse_and_commutative scenario 1 2).
    + apply scenario_live.
    + apply scenario_live.
    + reflexivity.
    + reflexivity.
Defined.

(** ** Purity *)

Lemma allocated_leaves (w : world) (m : SparseMatrix) (l : loc) :
  l ∈ dom (heap w) → heap (allocated w m) !! l = heap w !! l.
Proof.
  intros Hl. unfold allocated. cbn [heap].
  apply lookup_insert_ne. by apply fresh_loc_ne.
Qed.

Lemma allocated_fresh (w : world) (m : SparseMatrix) :
  (fresh (dom (heap w)) ∉ dom (heap w))
  ∧ fresh (dom (heap w)) ∈ dom (heap (allocated w m)).
Proof.
  split; [apply is_fresh|]. unfold allocated. cbn [heap].
  rewrite dom_insert. set_solver.
Qed.

(** C9. Whatever their outcome, [add], [subtract] and [multiply] leave every
    object that was live before the call, the two operands among them, with
    the rows, the columns and the entries it had, and leave the files alone;
    the matrix they return is an object that was not live before the call. *)
Theorem arithmetic_leaves_operands (w : world) (self other : loc) :
  self ∈ dom (heap w) → other ∈ dom (heap w) →
  leaves_operands add w self other
  ∧ leaves_operands subtract w self other
  ∧ leaves_operands multiply w self other
  ∧ (Rows (heap w !!! self) = Rows (heap w !!! other) →
     Colu (heap w !!! self) = Colu (heap w !!! other) →
     ∃ r1 w1 r2 w2,
       add self other w = (Return r1, w1)
       ∧ subtract self other w = (Return r2, w2)
       ∧ heap w1 !!! self = heap w !!! self
       ∧ heap w1 !!! other = heap w !!! other
       ∧ heap w2 !!! self = heap w !!! self
       ∧ heap w2 !!! other = heap w !!! other
       ∧ (r1 ∉ dom (heap w)) ∧ (r2 ∉ dom (heap w)))
  ∧ (Colu (heap w !!! self) = Rows (heap w !!! other) →
     ∃ r w',
       multiply self other w = (Return r, w')
       ∧ heap w' !!! self = heap w !!! self
       ∧ heap w' !!! other = heap w !!! other
       ∧ r ∉ dom (heap w)).
Proof.
  intros Hs Ho.
  assert (Hgen : ∀ (m : SparseMatrix) (e : exn) (P : Prop) `{!Decision P}
            (o : outcome loc) (w' : world),
            (if decide P then (Raise e, w)
             else (Return (fresh (dom (heap w))), allocated w m)) = (o, w') →
            heap w' !! self = heap w !! self
            ∧ heap w' !! other = heap w !! other
            ∧ (∀ l, l ∈ dom (heap w) → heap w' !! l = heap w !! l)
            ∧ disk w' = disk w
            ∧ (∀ result, o = Return result →
                 (result ∉ dom (heap w)) ∧ result ∈ dom (heap w'))).
  { intros m e P HP o w' H. case_decide; inversion H; subst; clear H.
    - repeat split; try done.
    - split; [by apply allocated_leaves|]. split; [by apply allocated_leaves|].
      split; [intros l Hl; by apply allocated_leaves|]. split; [done|].
      intros result [= <-]. apply allocated_fresh. }
  assert (Htotal : ∀ (m : SparseMatrix) (l : loc),
            l ∈ dom (heap w) → heap (allocated w m) !!! l = heap w !!! l).
  { intros m l Hl. unfold allocated. cbn [heap].
    apply lookup_total_insert_ne. by apply fresh_loc_ne. }
  split; [|split; [|split; [|split]]].
  - intros o w'. rewrite add_run by done. apply Hgen.
  - intros o w'. rewrite subtract_run by done. apply Hgen.
  - intros o w'. rewrite multiply_run by done. apply Hgen.
  - intros HR HC. rewrite add_run, subtract_run by done.
    rewrite !decide_False by tauto.
    eexists _, _, _, _. split; [done|]. split; [done|].
    rewrite !Htotal by done. repeat split; apply is_fresh.
  - intros HD. rewrite multiply_run by done.
    rewrite decide_False by (intros H; by apply H).
    eexists _, _. split; [done|].
    rewrite !Htotal by done. repeat split. apply is_fresh.
Qed.

Lemma arithmetic_leaves_operands_witness :
  (1%positive ∈ dom (heap scenario) ∧ 2%positive ∈ dom (heap scenario))
  ∧ leaves_operands add scenario 1 2
  ∧ leaves_operands subtract scenario 1 2
  ∧ leaves_operands multiply scenario 1 2.
Proof.
  pose proof (arithmetic_leaves_operands scenario 1 2
                (proj1 scenario_live) (proj2 scenario_live)) as H.
  split; [apply scenario_live|].
  split; [apply H|]. split; [apply H | apply H].
Defined.

(** ** The concrete scenario *)

(** C3, as stated: the sum has the entries (0,0,4), (0,1,4), (1,1,2) and
    the product the entries (0,0,3), (0,1,4), (1,1,8).  The second half
    fails: row 1 of B is empty, so the product has no entry in row 1. *)
Lemma scenario_as_stated_fails :
  ¬ (entries_of (parse_and add) scenario_files
     = Some {[ (0, 0) := 4; (0, 1) := 4; (1, 1) := 2 ]}
     ∧ entries_of (parse_and multiply) scenario_files
       = Some {[ (0, 0) := 3; (0, 1) := 4; (1, 1) := 8 ]}).
Proof.
  intros [_ H].
  assert (H' : entries_of (parse_and multiply) scenario_files
               ≫= (λ m, m !! (1, 1)) = Some 8) by (by rewrite H).
  vm_compute in H'. discriminate H'.
Qed.

(** C3, amended: parsed from the two texts, the sum has exactly the entries
    (0,0,4), (0,1,4), (1,1,2) and the product exactly the entries (0,0,3),
    (0,1,4). *)
Theorem scenario_sum_and_product :
  entries_of (parse_and add) scenario_files
  = Some {[ (0, 0) := 4; (0, 1) := 4; (1, 1) := 2 ]}
  ∧ entries_of (parse_and multiply) scenario_files
    = Some {[ (0, 0) := 3; (0, 1) := 4 ]}.
Proof. split; vm_compute; reflexivity. Qed.

(** ** No stored zero *)

Lemma program_world_reachable : reachable program_world.
Proof.
  unfold program_world. apply reachable_call.
  - apply reachable_call; [apply reachable_start | exact I].
  - cbn [live]. apply elem_of_dom. eexists. reflexivity.
Defined.

(** C8. In every world reached from the start by calls of the public
    operations on live objects (construction, [read_from_file],
    [getElement], [setElement], [add], [subtract], [multiply],
    [process_file]), whatever happens to the files in between, no object
    stores an entry of value zero; and [setElement] with the value zero
    leaves no entry at the coordinate and changes no other coordinate. *)
Theorem stored_entries_are_nonzero (w : world) :
  reachable w →
  (∀ l m k v, heap w !! l = Some m → elements m !! k = Some v → v ≠ 0)
  ∧ (∀ l i j, l ∈ dom (heap w) →
       ∃ w', setElement l i j 0 w = (Return (), w')
             ∧ reachable w'
             ∧ elements (heap w' !!! l) !! (i, j) = None
             ∧ ∀ k, k ≠ (i, j) →
                 elements (heap w' !!! l) !! k = elements (heap w !!! l) !! k).
Proof.
  intros Hr. split.
  - intros l m k v Hl. by apply (reachable_nonzero w Hr l m Hl).
  - intros l i j Hl. eexists. split; [apply run_setElement|].
    split; [apply (reachable_call w (Call_setElement l i j 0) Hr Hl)|].
    cbn [heap]. rewrite lookup_total_insert_eq. split.
    + rewrite set_entry_lookup. by rewrite decide_True.
    + intros k Hk. rewrite set_entry_lookup. by rewrite decide_False.
Qed.

Lemma stored_entries_are_nonzero_witness :
  reachable program_world
  ∧ (∀ l m k v, heap program_world !! l = Some m →
       elements m !! k = Some v → v ≠ 0)
  ∧ (∀ l i j, l ∈ dom (heap program_world) →
       ∃ w', setElement l i j 0 program_world = (Return (), w')
             ∧ reachable w'
             ∧ elements (heap w' !!! l) !! (i, j) = None
             ∧ ∀ k, k ≠ (i, j) →
                 elements (heap w' !!! l) !! k
                 = elements (heap program_world !!! l) !! k).
Proof.
  split; [apply program_world_reachable|].
  apply (stored_entries_are_nonzero program_world program_world_reachable).
Defined.

(** ** Serialising and parsing *)


Lemma matrix_A_well_formed : well_formed (heap scenario !!! 1%positive).
Proof.
  change (heap scenario !!! 1%positive) with matrix_A.
  split; [done|]. split; [done|]. intros i j v H. cbn [matrix_A elements Rows Colu] in *.
  apply lookup_insert_Some in H as [[[= <- <-] <-]|[_ H]]; [lia|].
  apply lookup_singleton_Some in H as [[= <- <-] <-]. lia.
Defined.


(** ** Parse failures *)

(** C5, as stated: a text without a [rows=] header fails to parse.  The
    text [cols=2], [cols=3], [(0,0,1)] has no line starting with [rows=],
    and [read_from_file] returns, with 2 rows and 3 columns. *)
Lemma text_without_rows_header_parses :
  (∀ l, l ∈ Py.readlines text_no_rows → ¬ Py.chars "rows=" `prefix_of` l)
  ∧ (∀ e, ¬ raises (read_from_file 1 "N") parse_world e)
  ∧ ∃ w', read_from_file 1 "N" parse_world = (Return (), w')
          ∧ heap w' !!! 1%positive
            = {| Rows := 2; Colu := 3; elements := {[ (0, 0) := 1 ]} |}.
Proof.
  assert (Hrun : read_from_file 1 "N" parse_world
                 = (Return (),
                    {| heap := {[ 1%positive :=
                         {| Rows := 2; Colu := 3; elements := {[ (0, 0) := 1 ]} |} ]};
                       disk := disk parse_world |})).
  { rewrite read_from_file_run. vm_compute. reflexivity. }
  split; [|split].
  - intros l Hl.
    change (Py.readlines text_no_rows)
      with [Py.chars "cols=2" ++ [Py.LF]; Py.chars "cols=3" ++ [Py.LF];
            Py.chars "(0,0,1)"] in Hl.
    repeat (apply elem_of_cons in Hl as [->|Hl]);
      [| | |by apply elem_of_nil in Hl];
      intros [k Hk]; vm_compute in Hk; discriminate Hk.
  - intros e [w' H]. rewrite Hrun in H. discriminate H.
  - eexists. split; [apply Hrun|]. reflexivity.
Qed.

(** C5, amended.  [read_from_file] raises the one format error
    - when the file cannot be read;
    - when the text has no first or no second line, or one of these two
      lines has no [=], or the field after its first [=] is not an integer
      literal (the word before the [=] is not looked at);
    - when a line after the first two is not blank and the triple pattern
      does not match at its start; the lines after it are not read.
    A blank line is skipped, and no other exception is ever raised. *)
Theorem parse_failures (w : world) (self : loc) (path : string) :
  (∀ e, raises (read_from_file self path) w e → e = wrong_format)
  ∧ (disk w !! path = None → raises (read_from_file self path) w wrong_format)
  ∧ (∀ t, disk w !! path = Some t →
       (header_value (Py.readlines t) 0 = None
        ∨ header_value (Py.readlines t) 1 = None →
        raises (read_from_file self path) w wrong_format)
       ∧ (Py.readlines t = [] → raises (read_from_file self path) w wrong_format)
       ∧ (∀ l0, Py.readlines t !! 0%nat = Some l0 →
            Forall (λ c, Ascii.eqb c "="%char = false) l0 →
            raises (read_from_file self path) w wrong_format)
       ∧ (∀ pre bad post,
            drop 2 (Py.readlines t) = pre ++ bad :: post →
            offending bad →
            raises (read_from_file self path) w wrong_format))
  ∧ (∀ l w0, blank l → read_line self l w0 = (Return (), w0))
  ∧ (∀ l lines m, blank l → apply_lines (l :: lines) m = apply_lines lines m).
Proof.
  assert (Hfail : (parse_into (heap w !!! self) (disk w !! path)).1 = false →
                  raises (read_from_file self path) w wrong_format).
  { intros H. unfold raises. rewrite read_from_file_run, H. eauto. }
  assert (Hhead : ∀ t, disk w !! path = Some t →
            header_value (Py.readlines t) 0 = None
            ∨ header_value (Py.readlines t) 1 = None →
            raises (read_from_file self path) w wrong_format).
  { intros t Ht H. apply Hfail. rewrite Ht. unfold parse_into. cbv zeta.
    destruct (header_value (Py.readlines t) 0) as [r|]; [|done].
    destruct (header_value (Py.readlines t) 1) as [c|]; [|done].
    by destruct H. }
  split; [|split; [|split; [|split]]].
  - intros e [w' H]. rewrite read_from_file_run in H.
    destruct (parse_into _ _).1; congruence.
  - intros H. apply Hfail. by rewrite H.
  - intros t Ht. split; [by apply Hhead|]. split; [|split].
    + intros H. apply (Hhead t Ht). left. rewrite H. apply header_value_empty.
    + intros l0 H0 Hl. apply (Hhead t Ht). left.
      by apply (header_value_no_sep _ l0).
    + intros pre bad post Hd Hbad. apply Hfail. rewrite Ht.
      unfold parse_into. cbv zeta.
      destruct (header_value (Py.readlines t) 0) as [r|]; [|done].
      destruct (header_value (Py.readlines t) 1) as [c|]; [|done].
      rewrite Hd. clear Hd. revert Hbad. generalize (mkSparseMatrix r c ∅).
      induction pre as [|l pre IH]; intros m [Hne Hbad].
      * cbn [app apply_lines]. unfold apply_line, triple_of. rewrite Hbad.
        by destruct (Py.strip bad).
      * rewrite <- app_comm_cons. cbn [apply_lines].
        destruct (apply_line m l) as [m'|]; [by apply IH | done].
  - intros l w0 Hl. unfold read_line. by rewrite Hl.
  - intros l lines m Hl. by apply apply_lines_blank.
Qed.

Lemma parse_failures_witness :
  drop 2 (Py.readlines text_partial)
  = [Py.chars "(0,0,1)" ++ [Py.LF]; [Py.LF]] ++ (Py.chars "1 1 2" ++ [Py.LF])
    :: [Py.chars "(1,1,2)"]
  ∧ offending (Py.chars "1 1 2" ++ [Py.LF])
  ∧ blank [Py.LF]
  ∧ raises (read_from_file 1 "P") parse_world wrong_format
  ∧ read_line 1 [Py.LF] parse_world = (Return (), parse_world).
Proof.
  assert (Hd : drop 2 (Py.readlines text_partial)
    = [Py.chars "(0,0,1)" ++ [Py.LF]; [Py.LF]] ++ (Py.chars "1 1 2" ++ [Py.LF])
      :: [Py.chars "(1,1,2)"]) by reflexivity.
  assert (Hbad : offending (Py.chars "1 1 2" ++ [Py.LF])).
  { split; [discriminate | reflexivity]. }
  assert (Hblank : blank [Py.LF]) by reflexivity.
  pose proof (parse_failures parse_world 1 "P") as (_ & _ & Ht & Hskip & _).
  split; [exact Hd|]. split; [exact Hbad|]. split; [exact Hblank|]. split.
  - destruct (Ht text_partial eq_refl) as (_ & _ & _ & Hoff).
    exact (Hoff _ _ _ Hd Hbad).
  - apply Hskip. exact Hblank.
Defined.

(** ** Failure part-way through a file *)



(** * Further properties of the code *)

(** ** Helper facts *)

Lemma combine_get_all f A B i j :
  f 0 0 = 0 →
  get_entry (combine f A B) i j = f (get_entry A i j) (get_entry B i j).
Proof.
  intros Hf. rewrite combine_get. case_decide as H; [done|].
  apply not_elem_of_union in H as [HA HB].
  by rewrite !get_entry_unoccupied.
Qed.

Lemma nonzero_matrix_eq m1 m2 :
  nonzero m1 → nonzero m2 → Rows m1 = Rows m2 → Colu m1 = Colu m2 →
  entrywise_equal m1 m2 → m1 = m2.
Proof.
  intros H1 H2 HR HC He. apply matrix_eq; [done|done|].
  by apply entrywise_equal_elements.
Qed.

Lemma add_returns (w : world) (self other : loc) :
  self ∈ dom (heap w) → other ∈ dom (heap w) →
  Rows (heap w !!! self) = Rows (heap w !!! other) →
  Colu (heap w !!! self) = Colu (heap w !!! other) →
  add self other w
  = (Return (fresh (dom (heap w))),
     allocated w (combine Z.add (heap w !!! self) (heap w !!! other))).
Proof. intros Hs Ho HR HC. rewrite add_run by done. by rewrite decide_False by tauto. Qed.

Lemma subtract_returns (w : world) (self other : loc) :
  self ∈ dom (heap w) → other ∈ dom (heap w) →
  Rows (heap w !!! self) = Rows (heap w !!! other) →
  Colu (heap w !!! self) = Colu (heap w !!! other) →
  subtract self other w
  = (Return (fresh (dom (heap w))),
     allocated w (combine Z.sub (heap w !!! self) (heap w !!! other))).
Proof.
  intros Hs Ho HR HC. rewrite subtract_run by done.
  by rewrite decide_False by tauto.
Qed.

Lemma multiply_returns (w : world) (self other : loc) :
  self ∈ dom (heap w) → other ∈ dom (heap w) →
  Colu (heap w !!! self) = Rows (heap w !!! other) →
  multiply self other w
  = (Return (fresh (dom (heap w))),
     allocated w (product (heap w !!! self) (heap w !!! other))).
Proof.
  intros Hs Ho HD. rewrite multiply_run by done.
  by rewrite decide_False by (intros H; by apply H).
Qed.

Lemma allocated_old (w : world) (m : SparseMatrix) (l : loc) :
  l ∈ dom (heap w) → heap (allocated w m) !!! l = heap w !!! l.
Proof.
  intros Hl. unfold allocated. cbn [heap].
  apply lookup_total_insert_ne. by apply fresh_loc_ne.
Qed.

Lemma allocated_live (w : world) (m : SparseMatrix) (l : loc) :
  l ∈ dom (heap w) → l ∈ dom (heap (allocated w m)).
Proof. intros Hl. unfold allocated. cbn [heap]. rewrite dom_insert. set_solver. Qed.

Lemma allocated_result_live (w : world) (m : SparseMatrix) :
  fresh (dom (heap w)) ∈ dom (heap (allocated w m)).
Proof. unfold allocated. cbn [heap]. rewrite dom_insert. set_solver. Qed.

Lemma set_entry_set_entry m i j v1 v2 :
  set_entry (set_entry m i j v1) i j v2 = set_entry m i j v2.
Proof.
  apply matrix_eq.
  - by rewrite !set_entry_Rows.
  - by rewrite !set_entry_Colu.
  - apply map_eq. intros k. rewrite !set_entry_lookup. by case_decide.
Qed.

Lemma set_entry_comm m i1 j1 v1 i2 j2 v2 :
  (i1, j1) ≠ (i2, j2) →
  set_entry (set_entry m i1 j1 v1) i2 j2 v2
  = set_entry (set_entry m i2 j2 v2) i1 j1 v1.
Proof.
  intros Hne. apply matrix_eq.
  - by rewrite !set_entry_Rows.
  - by rewrite !set_entry_Colu.
  - apply map_eq. intros k. rewrite !set_entry_lookup.
    repeat case_decide; congruence.
Qed.

Lemma set_entry_same m i j : nonzero m → set_entry m i j (get_entry m i j) = m.
Proof.
  intros Hm. apply matrix_eq.
  - apply set_entry_Rows.
  - apply set_entry_Colu.
  - apply map_eq. intros k. rewrite set_entry_lookup.
    case_decide as Hk; [|done]. subst k. by rewrite <- nonzero_lookup.
Qed.

Lemma world_eq (w1 w2 : world) : heap w1 = heap w2 → disk w1 = disk w2 → w1 = w2.
Proof. destruct w1, w2; simpl; congruence. Qed.

(** ** The getter and the setter *)

(** X1. After [setElement(i, j, v)] the getter reads [v] at [(i, j)], for
    every value and every coordinate, inside the declared dimensions or not;
    the entry is stored exactly when [v] is not zero.  Every other
    coordinate reads as before, the dimensions, the other objects and the
    files are unchanged. *)
Theorem setElement_then_getElement (w : world) (self : loc) (i j v : Z) :
  ∃ w',
    setElement self i j v w = (Return (), w')
    ∧ getElement self i j w' = (Return v, w')
    ∧ elements (heap w' !!! self) !! (i, j) = (if decide (v = 0) then None else Some v)
    ∧ (∀ i' j', (i', j') ≠ (i, j) →
         getElement self i' j' w'
         = (Return (get_entry (heap w !!! self) i' j'), w')
         ∧ elements (heap w' !!! self) !! (i', j')
           = elements (heap w !!! self) !! (i', j'))
    ∧ Rows (heap w' !!! self) = Rows (heap w !!! self)
    ∧ Colu (heap w' !!! self) = Colu (heap w !!! self)
    ∧ (∀ l, l ≠ self → heap w' !! l = heap w !! l)
    ∧ disk w' = disk w.
Proof.
  eexists. split; [apply run_setElement|].
  rewrite !run_getElement. cbn [heap disk].
  rewrite !lookup_total_insert_eq.
  split. { by rewrite get_entry_set_entry, decide_True. }
  split. { rewrite set_entry_lookup. by rewrite decide_True. }
  split.
  { intros i' j' Hne. rewrite run_getElement. cbn [heap].
    rewrite lookup_total_insert_eq, get_entry_set_entry, set_entry_lookup.
    by rewrite !decide_False. }
  split; [apply set_entry_Rows|]. split; [apply set_entry_Colu|].
  split; [|done]. intros l Hl. by rewrite lookup_insert_ne.
Qed.

(** X2. Two writes to the same coordinate leave what the second one alone
    leaves, and writes to different coordinates can be swapped. *)
Theorem setElement_last_write_wins (w : world) (self : loc)
    (i j v1 v2 i' j' : Z) :
  (setElement self i j v1;; setElement self i j v2) w = setElement self i j v2 w
  ∧ ((i, j) ≠ (i', j') →
     (setElement self i j v1;; setElement self i' j' v2) w
     = (setElement self i' j' v2;; setElement self i j v1) w).
Proof.
  split.
  - rewrite run_bind, !run_setElement. cbn [heap disk].
    by rewrite lookup_total_insert_eq, insert_insert_eq, set_entry_set_entry.
  - intros Hne. rewrite !run_bind, !run_setElement. cbn [heap disk].
    rewrite !lookup_total_insert_eq, !insert_insert_eq.
    by rewrite set_entry_comm.
Qed.

Lemma setElement_last_write_wins_witness :
  ((0, 0) ≠ (0, 1))
  ∧ (setElement 1 0 0 5;; setElement 1 0 1 7) scenario
    = (setElement 1 0 1 7;; setElement 1 0 0 5) scenario.
Proof.
  split; [discriminate|].
  apply (setElement_last_write_wins scenario 1 0 0 5 7 0 1). discriminate.
Defined.

(** X3. In a reachable world, writing back the value the getter reads at a
    coordinate changes nothing: the world after the call is the world
    before it. *)
Theorem setElement_of_read_value (w : world) (self : loc) (i j : Z) :
  reachable w → self ∈ dom (heap w) →
  setElement self i j (get_entry (heap w !!! self) i j) w = (Return (), w).
Proof.
  intros Hr [m Hm]%elem_of_dom. rewrite run_setElement. f_equal.
  pose proof (reachable_nonzero w Hr self m Hm) as Hnz. cbn beta in Hnz.
  rewrite (lookup_total_correct _ _ _ Hm), set_entry_same by done.
  apply world_eq; [|done]. cbn [heap]. by apply insert_id.
Qed.

Lemma setElement_of_read_value_witness :
  (reachable program_world ∧ 1%positive ∈ dom (heap program_world))
  ∧ setElement 1 0 0 (get_entry (heap program_world !!! 1%positive) 0 0)
      program_world
    = (Return (), program_world).
Proof.
  assert (Hl : 1%positive ∈ dom (heap program_world)).
  { apply elem_of_dom. eexists. reflexivity. }
  split; [split; [apply program_world_reachable | exact Hl]|].
  apply (setElement_of_read_value program_world 1 0 0
           program_world_reachable Hl).
Defined.

(** ** Subtraction and addition *)

(** X4. For operands with the same dimensions, [subtract] returns a new
    matrix with these dimensions.  At every coordinate occupied in one of
    the operands its entry is the difference of the two entries, stored only
    when it is not zero; a coordinate occupied in neither operand is absent
    from the result. *)
Theorem subtract_union_of_entries (w : world) (self other : loc) :
  self ∈ dom (heap w) → other ∈ dom (heap w) →
  Rows (heap w !!! self) = Rows (heap w !!! other) →
  Colu (heap w !!! self) = Colu (heap w !!! other) →
  ∃ result w',
    subtract self other w = (Return result, w')
    ∧ Rows (heap w' !!! result) = Rows (heap w !!! self)
    ∧ Colu (heap w' !!! result) = Colu (heap w !!! self)
    ∧ ∀ i j,
        get_entry (heap w' !!! result) i j
        = get_entry (heap w !!! self) i j - get_entry (heap w !!! other) i j
        ∧ elements (heap w' !!! result) !! (i, j)
          = (if decide ((i, j) ∈ dom (elements (heap w !!! self))
                                 ∪ dom (elements (heap w !!! other)))
             then stored (get_entry (heap w !!! self) i j
                          - get_entry (heap w !!! other) i j)
             else None).
Proof.
  intros Hs Ho HR HC. rewrite subtract_returns by done.
  eexists _, _. split; [done|]. rewrite allocated_result.
  split; [apply combine_Rows|]. split; [apply combine_Colu|].
  intros i j. split; [by apply combine_get_all | apply combine_lookup].
Qed.

Lemma subtract_union_of_entries_witness :
  (1%positive ∈ dom (heap scenario) ∧ 2%positive ∈ dom (heap scenario)
   ∧ Rows (heap scenario !!! 1%positive) = Rows (heap scenario !!! 2%positive)
   ∧ Colu (heap scenario !!! 1%positive) = Colu (heap scenario !!! 2%positive))
  ∧ ∃ result w',
      subtract 1 2 scenario = (Return result, w')
      ∧ Rows (heap w' !!! result) = Rows (heap scenario !!! 1%positive)
      ∧ Colu (heap w' !!! result) = Colu (heap scenario !!! 1%positive)
      ∧ ∀ i j,
          get_entry (heap w' !!! result) i j
          = get_entry (heap scenario !!! 1%positive) i j
            - get_entry (heap scenario !!! 2%positive) i j
          ∧ elements (heap w' !!! result) !! (i, j)
            = (if decide ((i, j) ∈ dom (elements (heap scenario !!! 1%positive))
                                   ∪ dom (elements (heap scenario !!! 2%positive)))
               then stored (get_entry (heap scenario !!! 1%positive) i j
                            - get_entry (heap scenario !!! 2%positive) i j)
               else None).
Proof.
  split.
  - split; [apply scenario_live|]. split; [apply scenario_live|].
    split; reflexivity.
  - apply (subtract_union_of_entries scenario 1 2).
    + apply scenario_live.
    + apply scenario_live.
    + reflexivity.
    + reflexivity.
Defined.

(** X5. An object can be both operands of a call: subtracting a matrix from
    itself returns a matrix of the same dimensions that stores nothing, and
    adding it to itself returns the matrix whose entries are doubled; the
    object itself is unchanged by both calls. *)
Theorem same_object_as_both_operands (w : world) (self : loc) :
  self ∈ dom (heap w) →
  (∃ r w',
     subtract self self w = (Return r, w')
     ∧ Rows (heap w' !!! r) = Rows (heap w !!! self)
     ∧ Colu (heap w' !!! r) = Colu (heap w !!! self)
     ∧ elements (heap w' !!! r) = ∅
     ∧ heap w' !! self = heap w !! self)
  ∧ (∃ r w',
       add self self w = (Return r, w')
       ∧ (∀ i j, get_entry (heap w' !!! r) i j
                 = 2 * get_entry (heap w !!! self) i j)
       ∧ heap w' !! self = heap w !! self).
Proof.
  intros Hs. split.
  - rewrite subtract_returns by done. eexists _, _. split; [done|].
    rewrite allocated_result, allocated_leaves by done.
    split; [apply combine_Rows|]. split; [apply combine_Colu|].
    split; [|done]. apply map_eq. intros [i j].
    rewrite combine_lookup, lookup_empty.
    case_decide; [|done]. unfold stored. rewrite decide_True; [done | lia].
  - rewrite add_returns by done. eexists _, _. split; [done|].
    rewrite allocated_result, allocated_leaves by done.
    split; [|done]. intros i j. rewrite combine_get_all by done. lia.
Qed.

Lemma same_object_as_both_operands_witness :
  1%positive ∈ dom (heap scenario)
  ∧ ∃ r w',
      subtract 1 1 scenario = (Return r, w')
      ∧ Rows (heap w' !!! r) = Rows (heap scenario !!! 1%positive)
      ∧ Colu (heap w' !!! r) = Colu (heap scenario !!! 1%positive)
      ∧ elements (heap w' !!! r) = ∅
      ∧ heap w' !! 1%positive = heap scenario !! 1%positive.
Proof.
  split; [apply scenario_live|].
  apply (same_object_as_both_operands scenario 1 (proj1 scenario_live)).
Defined.

(** X6. For operands with the same dimensions, adding the right operand
    back to the difference gives a matrix that is entrywise equal to the
    left operand, and swapping the operands of [subtract] negates every
    entry. *)
Theorem subtract_then_add_inverse (w : world) (self other : loc) :
  self ∈ dom (heap w) → other ∈ dom (heap w) →
  Rows (heap w !!! self) = Rows (heap w !!! other) →
  Colu (heap w !!! self) = Colu (heap w !!! other) →
  ∃ diff w1 back w2 diff' w1',
    subtract self other w = (Return diff, w1)
    ∧ add diff other w1 = (Return back, w2)
    ∧ subtract other self w = (Return diff', w1')
    ∧ entrywise_equal (heap w2 !!! back) (heap w !!! self)
    ∧ (nonzero (heap w !!! self) → heap w2 !!! back = heap w !!! self)
    ∧ ∀ i j, get_entry (heap w1' !!! diff') i j
             = - get_entry (heap w1 !!! diff) i j.
Proof.
  intros Hs Ho HR HC.
  set (A := heap w !!! self) in *. set (B := heap w !!! other) in *.
  set (w1 := allocated w (combine Z.sub A B)).
  assert (Hd : heap w1 !!! fresh (dom (heap w)) = combine Z.sub A B)
    by apply allocated_result.
  assert (Hb : heap w1 !!! other = B) by by apply allocated_old.
  exists (fresh (dom (heap w))), w1, (fresh (dom (heap w1))),
    (allocated w1 (combine Z.add (combine Z.sub A B) B)),
    (fresh (dom (heap w))), (allocated w (combine Z.sub B A)).
  split; [by apply subtract_returns|]. split.
  { rewrite add_returns; rewrite ?Hd, ?Hb; try done.
    - apply allocated_result_live.
    - by apply allocated_live.
    - by rewrite combine_Rows.
    - by rewrite combine_Colu. }
  split; [by apply subtract_returns|].
  rewrite !allocated_result, Hd.
  assert (He : entrywise_equal (combine Z.add (combine Z.sub A B) B) A).
  { intros i j. rewrite !combine_get_all by done. lia. }
  split; [done|]. split.
  - intros HA. apply nonzero_matrix_eq; try done.
    + apply combine_nonzero.
    + by rewrite !combine_Rows.
    + by rewrite !combine_Colu.
  - intros i j. rewrite !combine_get_all by done. lia.
Qed.

Lemma subtract_then_add_inverse_witness :
  (1%positive ∈ dom (heap scenario) ∧ 2%positive ∈ dom (heap scenario)
   ∧ Rows (heap scenario !!! 1%positive) = Rows (heap scenario !!! 2%positive)
   ∧ Colu (heap scenario !!! 1%positive) = Colu (heap scenario !!! 2%positive))
  ∧ ∃ diff w1 back w2 diff' w1',
      subtract 1 2 scenario = (Return diff, w1)
      ∧ add diff 2 w1 = (Return back, w2)
      ∧ subtract 2 1 scenario = (Return diff', w1')
      ∧ entrywise_equal (heap w2 !!! back) (heap scenario !!! 1%positive)
      ∧ (nonzero (heap scenario !!! 1%positive) →
         heap w2 !!! back = heap scenario !!! 1%positive)
      ∧ ∀ i j, get_entry (heap w1' !!! diff') i j
               = - get_entry (heap w1 !!! diff) i j.
Proof.
  split.
  - split; [apply scenario_live|]. split; [apply scenario_live|].
    split; reflexivity.
  - apply (subtract_then_add_inverse scenario 1 2).
    + apply scenario_live.
    + apply scenario_live.
    + reflexivity.
    + reflexivity.
Defined.

(** X7. [add] is associative: for three matrices with the same dimensions
    the two ways of adding them return equal matrices, with the same stored
    entries. *)
Theorem add_associative (w : world) (a b c : loc) :
  a ∈ dom (heap w) → b ∈ dom (heap w) → c ∈ dom (heap w) →
  Rows (heap w !!! a) = Rows (heap w !!! b) →
  Colu (heap w !!! a) = Colu (heap w !!! b) →
  Rows (heap w !!! b) = Rows (heap w !!! c) →
  Colu (heap w !!! b) = Colu (heap w !!! c) →
  ∃ s w1 r w2 t w1' r' w2',
    add a b w = (Return s, w1)
    ∧ add s c w1 = (Return r, w2)
    ∧ add b c w = (Return t, w1')
    ∧ add a t w1' = (Return r', w2')
    ∧ heap w2 !!! r = heap w2' !!! r'.
Proof.
  intros Ha Hb Hc HR1 HC1 HR2 HC2.
  set (A := heap w !!! a) in *. set (B := heap w !!! b) in *.
  set (C := heap w !!! c) in *.
  set (w1 := allocated w (combine Z.add A B)).
  set (w1' := allocated w (combine Z.add B C)).
  exists (fresh (dom (heap w))), w1, (fresh (dom (heap w1))),
    (allocated w1 (combine Z.add (combine Z.add A B) C)),
    (fresh (dom (heap w))), w1', (fresh (dom (heap w1'))),
    (allocated w1' (combine Z.add A (combine Z.add B C))).
  split; [by apply add_returns|]. split.
  { rewrite add_returns.
    - unfold w1. by rewrite allocated_result, allocated_old.
    - apply allocated_result_live.
    - by apply allocated_live.
    - unfold w1. rewrite allocated_result, allocated_old by done.
      rewrite combine_Rows. fold C. congruence.
    - unfold w1. rewrite allocated_result, allocated_old by done.
      rewrite combine_Colu. fold C. congruence. }
  split; [by apply add_returns|]. split.
  { rewrite add_returns.
    - unfold w1'. by rewrite allocated_result, allocated_old.
    - by apply allocated_live.
    - apply allocated_result_live.
    - unfold w1'. rewrite allocated_result, allocated_old by done.
      by rewrite combine_Rows.
    - unfold w1'. rewrite allocated_result, allocated_old by done.
      by rewrite combine_Colu. }
  rewrite !allocated_result.
  apply nonzero_matrix_eq; try apply combine_nonzero.
  - by rewrite !combine_Rows.
  - by rewrite !combine_Colu.
  - intros i j. rewrite !combine_get_all by done. lia.
Qed.

Lemma add_associative_witness :
  (1%positive ∈ dom (heap scenario) ∧ 2%positive ∈ dom (heap scenario))
  ∧ ∃ s w1 r w2 t w1' r' w2',
      add 1 2 scenario = (Return s, w1)
      ∧ add s 1 w1 = (Return r, w2)
      ∧ add 2 1 scenario = (Return t, w1')
      ∧ add 1 t w1' = (Return r', w2')
      ∧ heap w2 !!! r = heap w2' !!! r'.
Proof.
  split; [apply scenario_live|].
  apply (add_associative scenario 1 2 1);
    try apply scenario_live; reflexivity.
Defined.

(** ** Multiplication *)

Lemma Zsum_scale {X} (c : Z) (g : X → Z) l :
  Zsum ((λ x, c * g x) <$> l) = c * Zsum (g <$> l).
Proof.
  induction l as [|x l IH]; [by rewrite Z.mul_0_r|].
  rewrite !fmap_cons, !Zsum_cons, IH. lia.
Qed.

Lemma Zsum_scale_r {X} (c : Z) (g : X → Z) l :
  Zsum ((λ x, g x * c) <$> l) = Zsum (g <$> l) * c.
Proof.
  induction l as [|x l IH]; [done|].
  rewrite !fmap_cons, !Zsum_cons, IH. lia.
Qed.

Lemma Zsum_ext {X} (g h : X → Z) l :
  (∀ x, x ∈ l → g x = h x) → Zsum (g <$> l) = Zsum (h <$> l).
Proof.
  intros H. f_equal. apply list_fmap_ext. intros n x Hx.
  apply H. by eapply list_elem_of_lookup_2.
Qed.

Lemma Zsum_exchange {X Y} (g : X → Y → Z) (xs : list X) (ys : list Y) :
  Zsum ((λ x, Zsum ((λ y, g x y) <$> ys)) <$> xs)
  = Zsum ((λ y, Zsum ((λ x, g x y) <$> xs)) <$> ys).
Proof.
  induction xs as [|x xs IH].
  - symmetry. by apply Zsum_zero.
  - rewrite fmap_cons, Zsum_cons, IH, <- Zsum_fmap_add.
    apply Zsum_ext. intros y _. by rewrite fmap_cons, Zsum_cons.
Qed.

Lemma elem_of_row_columns A i k :
  k ∈ row_columns A i ↔ (i, k) ∈ dom (elements A).
Proof.
  split; [|apply row_columns_cover].
  unfold row_columns. intros ([i' k'] & -> & H)%list_elem_of_fmap.
  apply list_elem_of_filter in H as [Hi H]. simpl in Hi. subst i'.
  apply list_elem_of_fmap in H as ([[i2 k2] v] & [= <- <-] & H).
  apply elem_of_map_to_list in H. apply elem_of_dom. by eexists.
Qed.

(** A stored entry of the product lies in a swept column and in a row
    that the left operand occupies. *)
Lemma product_lookup_Some A B i j v :
  elements (product A B) !! (i, j) = Some v →
  0 ≤ j < Colu B ∧ ∃ k, (i, k) ∈ dom (elements A).
Proof.
  rewrite (product_lookup A B i j _ (row_columns_NoDup A i) (row_columns_cover A i)).
  case_decide as Hj; [|done]. intros Hv. split; [done|].
  destruct (row_columns A i) as [|k ks] eqn:E.
  - by vm_compute in Hv.
  - exists k. apply elem_of_row_columns. rewrite E. apply list_elem_of_here.
Qed.

Lemma product_columns_cover A B i j :
  (i, j) ∈ dom (elements (product A B)) → j ∈ range (Colu B).
Proof.
  intros [v Hv]%elem_of_dom. apply product_lookup_Some in Hv as [Hj _].
  by apply elem_of_range.
Qed.

Lemma product_get_row A B i j :
  get_entry (product A B) i j
  = if decide (0 ≤ j < Colu B) then inner_product A B i j (row_columns A i) else 0.
Proof. apply product_get; [apply row_columns_NoDup | apply row_columns_cover]. Qed.

Lemma inner_product_add_r A B C i j K :
  inner_product A (combine Z.add B C) i j K
  = inner_product A B i j K + inner_product A C i j K.
Proof.
  unfold inner_product. rewrite <- Zsum_fmap_add.
  apply Zsum_ext. intros k _. rewrite combine_get_all by done. lia.
Qed.

Lemma product_empty A B : empty_matrix A ∨ empty_matrix B → elements (product A B) = ∅.
Proof.
  unfold empty_matrix. intros H. apply map_eq. intros [i j].
  rewrite (product_lookup A B i j _ (row_columns_NoDup A i) (row_columns_cover A i)).
  rewrite lookup_empty. case_decide; [|done].
  unfold inner_product. rewrite Zsum_zero; [done|].
  intros k _. unfold get_entry.
  destruct H as [-> | ->]; rewrite lookup_empty; simpl; lia.
Qed.

(** X8. When one of the operands stores nothing, the product stores
    nothing; it has the rows of the left and the columns of the right
    operand. *)
Theorem multiply_by_empty_matrix (w : world) (self other : loc) :
  self ∈ dom (heap w) → other ∈ dom (heap w) →
  Colu (heap w !!! self) = Rows (heap w !!! other) →
  empty_matrix (heap w !!! self) ∨ empty_matrix (heap w !!! other) →
  ∃ r w',
    multiply self other w = (Return r, w')
    ∧ heap w' !!! r
      = {| Rows := Rows (heap w !!! self); Colu := Colu (heap w !!! other);
           elements := ∅ |}.
Proof.
  intros Hs Ho HD He. rewrite multiply_returns by done.
  eexists _, _. split; [done|]. rewrite allocated_result.
  apply matrix_eq; [by rewrite product_Rows | by rewrite product_Colu |].
  by apply product_empty.
Qed.

Lemma fresh_world_live : 1%positive ∈ dom (heap fresh_world).
Proof. apply elem_of_dom. eexists. reflexivity. Defined.

Lemma multiply_by_empty_matrix_witness :
  (1%positive ∈ dom (heap fresh_world)
   ∧ Colu (heap fresh_world !!! 1%positive) = Rows (heap fresh_world !!! 1%positive)
   ∧ empty_matrix (heap fresh_world !!! 1%positive))
  ∧ ∃ r w',
      multiply 1 1 fresh_world = (Return r, w')
      ∧ heap w' !!! r
        = {| Rows := Rows (heap fresh_world !!! 1%positive);
             Colu := Colu (heap fresh_world !!! 1%positive);
             elements := ∅ |}.
Proof.
  split.
  - split; [apply fresh_world_live|]. split; reflexivity.
  - apply (multiply_by_empty_matrix fresh_world 1 1).
    + apply fresh_world_live.
    + apply fresh_world_live.
    + reflexivity.
    + left. reflexivity.
Defined.

Lemma product_add_r A B C :
  Colu B = Colu C →
  product A (combine Z.add B C) = combine Z.add (product A B) (product A C).
Proof.
  intros HC. apply nonzero_matrix_eq.
  - apply product_nonzero.
  - apply combine_nonzero.
  - by rewrite combine_Rows, !product_Rows.
  - by rewrite combine_Colu, !product_Colu, combine_Colu.
  - intros i j. rewrite combine_get_all, !product_get_row by done.
    rewrite combine_Colu, <- HC, inner_product_add_r. case_decide; lia.
Qed.

Lemma product_assoc A B C :
  columns_in_bounds B →
  product (product A B) C = product A (product B C).
Proof.
  intros HB. apply nonzero_matrix_eq; try apply product_nonzero.
  - by rewrite !product_Rows.
  - by rewrite !product_Colu.
  - intros i l.
    rewrite (product_get (product A B) C i l (range (Colu B)) (NoDup_range _)
               (λ k, product_columns_cover A B i k)).
    rewrite (product_get_row A (product B C)), product_Colu.
    case_decide as Hl; [|done]. unfold inner_product.
    rewrite (Zsum_ext _ (λ j, Zsum ((λ k, get_entry A i k * get_entry B k j
                                          * get_entry C j l)
                                    <$> row_columns A i)) (range (Colu B))).
    2:{ intros j Hj%elem_of_range. rewrite product_get_row.
        rewrite decide_True by done. unfold inner_product.
        by rewrite <- Zsum_scale_r. }
    rewrite (Zsum_exchange (λ j k, get_entry A i k * get_entry B k j
                                   * get_entry C j l)).
    apply Zsum_ext. intros k _.
    rewrite (product_get B C k l (range (Colu B)) (NoDup_range _)).
    2:{ intros j [v Hv]%elem_of_dom. apply elem_of_range. by eapply HB. }
    rewrite decide_True by done. unfold inner_product.
    rewrite <- Zsum_scale. apply Zsum_ext. intros j _. lia.
Qed.

(** Solves the liveness side conditions of a chain of calls. *)
Ltac live_solver :=
  repeat first [ assumption | apply allocated_result_live | apply allocated_live ].

(** X9. [multiply] distributes over [add] on the right: for [B] and [C] of
    the same dimensions and [A] with as many columns as they have rows,
    multiplying [A] by the sum returns the same matrix as adding the two
    products. *)
Theorem multiply_distributes_over_add (w : world) (a b c : loc) :
  a ∈ dom (heap w) → b ∈ dom (heap w) → c ∈ dom (heap w) →
  Rows (heap w !!! b) = Rows (heap w !!! c) →
  Colu (heap w !!! b) = Colu (heap w !!! c) →
  Colu (heap w !!! a) = Rows (heap w !!! b) →
  ∃ t w1 r w2 p w1' q w2' r' w3',
    add b c w = (Return t, w1)
    ∧ multiply a t w1 = (Return r, w2)
    ∧ multiply a b w = (Return p, w1')
    ∧ multiply a c w1' = (Return q, w2')
    ∧ add p q w2' = (Return r', w3')
    ∧ heap w2 !!! r = heap w3' !!! r'.
Proof.
  intros Ha Hb Hc HR HC HD.
  set (A := heap w !!! a) in *. set (B := heap w !!! b) in *.
  set (C := heap w !!! c) in *.
  set (w1 := allocated w (combine Z.add B C)).
  set (w2 := allocated w1 (product A (combine Z.add B C))).
  set (w1' := allocated w (product A B)).
  set (w2' := allocated w1' (product A C)).
  set (w3' := allocated w2' (combine Z.add (product A B) (product A C))).
  exists (fresh (dom (heap w))), w1, (fresh (dom (heap w1))), w2,
    (fresh (dom (heap w))), w1', (fresh (dom (heap w1'))), w2',
    (fresh (dom (heap w2'))), w3'.
  assert (E1 : heap w1 !!! a = A) by (by apply allocated_old).
  assert (E2 : heap w1 !!! fresh (dom (heap w)) = combine Z.add B C)
    by apply allocated_result.
  assert (E3 : heap w1' !!! a = A) by (by apply allocated_old).
  assert (E4 : heap w1' !!! c = C) by (by apply allocated_old).
  assert (E5 : heap w2' !!! fresh (dom (heap w)) = product A B).
  { unfold w2'. rewrite allocated_old by apply allocated_result_live.
    apply allocated_result. }
  assert (E6 : heap w2' !!! fresh (dom (heap w1')) = product A C)
    by apply allocated_result.
  split; [by apply add_returns|]. split.
  { rewrite multiply_returns; unfold w1; [|live_solver..|].
    - fold w1. by rewrite E1, E2.
    - fold w1. by rewrite E1, E2, combine_Rows. }
  split; [by apply multiply_returns|]. split.
  { rewrite multiply_returns; unfold w1'; [|live_solver..|].
    - fold w1'. by rewrite E3, E4.
    - fold w1'. rewrite E3, E4. fold A B C in HD, HR. congruence. }
  split.
  { rewrite add_returns; unfold w2', w1'; [|live_solver..| |].
    - fold w1' w2'. by rewrite E5, E6.
    - fold w1' w2'. by rewrite E5, E6, !product_Rows.
    - fold w1' w2'. by rewrite E5, E6, !product_Colu. }
  unfold w2, w3'. rewrite !allocated_result. by apply product_add_r.
Qed.

Lemma multiply_distributes_over_add_witness :
  (1%positive ∈ dom (heap scenario) ∧ 2%positive ∈ dom (heap scenario))
  ∧ ∃ t w1 r w2 p w1' q w2' r' w3',
      add 2 1 scenario = (Return t, w1)
      ∧ multiply 1 t w1 = (Return r, w2)
      ∧ multiply 1 2 scenario = (Return p, w1')
      ∧ multiply 1 1 w1' = (Return q, w2')
      ∧ add p q w2' = (Return r', w3')
      ∧ heap w2 !!! r = heap w3' !!! r'.
Proof.
  split; [apply scenario_live|].
  apply (multiply_distributes_over_add scenario 1 2 1);
    try apply scenario_live; reflexivity.
Defined.

(** X10. [multiply] is associative when the middle operand stores its
    entries inside its declared columns: for dimensions that chain, the two
    ways of multiplying three matrices return the same matrix. *)
Theorem multiply_associative (w : world) (a b c : loc) :
  a ∈ dom (heap w) → b ∈ dom (heap w) → c ∈ dom (heap w) →
  Colu (heap w !!! a) = Rows (heap w !!! b) →
  Colu (heap w !!! b) = Rows (heap w !!! c) →
  columns_in_bounds (heap w !!! b) →
  ∃ p w1 r w2 q w1' r' w2',
    multiply a b w = (Return p, w1)
    ∧ multiply p c w1 = (Return r, w2)
    ∧ multiply b c w = (Return q, w1')
    ∧ multiply a q w1' = (Return r', w2')
    ∧ heap w2 !!! r = heap w2' !!! r'.
Proof.
  intros Ha Hb Hc HD1 HD2 HB.
  set (A := heap w !!! a) in *. set (B := heap w !!! b) in *.
  set (C := heap w !!! c) in *.
  set (w1 := allocated w (product A B)).
  set (w2 := allocated w1 (product (product A B) C)).
  set (w1' := allocated w (product B C)).
  set (w2' := allocated w1' (product A (product B C))).
  exists (fresh (dom (heap w))), w1, (fresh (dom (heap w1))), w2,
    (fresh (dom (heap w))), w1', (fresh (dom (heap w1'))), w2'.
  assert (E1 : heap w1 !!! c = C) by (by apply allocated_old).
  assert (E2 : heap w1 !!! fresh (dom (heap w)) = product A B)
    by apply allocated_result.
  assert (E3 : heap w1' !!! a = A) by (by apply allocated_old).
  assert (E4 : heap w1' !!! fresh (dom (heap w)) = product B C)
    by apply allocated_result.
  split; [by apply multiply_returns|]. split.
  { rewrite multiply_returns; unfold w1; [|live_solver..|].
    - fold w1. by rewrite E1, E2.
    - fold w1. by rewrite E1, E2, product_Colu. }
  split; [by apply multiply_returns|]. split.
  { rewrite multiply_returns; unfold w1'; [|live_solver..|].
    - fold w1'. by rewrite E3, E4.
    - fold w1'. by rewrite E3, E4, product_Rows. }
  unfold w2, w2'. rewrite !allocated_result. by apply product_assoc.
Qed.

Lemma scenario_columns_in_bounds : columns_in_bounds (heap scenario !!! 2%positive).
Proof.
  change (heap scenario !!! 2%positive) with matrix_B.
  intros i j v H. cbn [matrix_B elements Colu] in *.
  apply lookup_insert_Some in H as [[[= <- <-] <-]|[_ H]]; [lia|].
  apply lookup_singleton_Some in H as [[= <- <-] <-]. lia.
Defined.

Lemma multiply_associative_witness :
  (1%positive ∈ dom (heap scenario) ∧ 2%positive ∈ dom (heap scenario)
   ∧ columns_in_bounds (heap scenario !!! 2%positive))
  ∧ ∃ p w1 r w2 q w1' r' w2',
      multiply 1 2 scenario = (Return p, w1)
      ∧ multiply p 1 w1 = (Return r, w2)
      ∧ multiply 2 1 scenario = (Return q, w1')
      ∧ multiply 1 q w1' = (Return r', w2')
      ∧ heap w2 !!! r = heap w2' !!! r'.
Proof.
  split.
  - split; [apply scenario_live|]. split; [apply scenario_live|].
    apply scenario_columns_in_bounds.
  - apply (multiply_associative scenario 1 2 1);
      try apply scenario_live; try reflexivity.
    apply scenario_columns_in_bounds.
Defined.

(** ** Arithmetic keeps the data model *)

Lemma combine_well_formed f A B :
  well_formed A → well_formed B → Rows A = Rows B → Colu A = Colu B →
  well_formed (combine f A B).
Proof.
  intros (HRA & HCA & HA) (HRB & HCB & HB) HR HC.
  unfold well_formed. rewrite combine_Rows, combine_Colu.
  split; [done|]. split; [done|]. intros i j v Hv.
  pose proof (combine_nonzero f A B _ _ Hv) as Hnz.
  assert (Hin : (i, j) ∈ dom (elements (combine f A B)))
    by (apply elem_of_dom; by eexists).
  apply combine_dom_subseteq, elem_of_union in Hin as [[x Hx]%elem_of_dom|[x Hx]%elem_of_dom].
  - apply HA in Hx. tauto.
  - apply HB in Hx. rewrite HR, HC. tauto.
Qed.

Lemma product_well_formed A B :
  well_formed A → well_formed B → well_formed (product A B).
Proof.
  intros (HRA & HCA & HA) (HRB & HCB & HB).
  unfold well_formed. rewrite product_Rows, product_Colu.
  split; [done|]. split; [done|]. intros i j v Hv.
  pose proof (product_nonzero A B _ _ Hv) as Hnz.
  apply product_lookup_Some in Hv as [Hj [k [x Hx]%elem_of_dom]].
  apply HA in Hx. tauto.
Qed.

(** X11. Arithmetic keeps the data model: when both operands are
    well-formed (non-negative dimensions, every stored coordinate inside
    them, no stored zero), every matrix returned by [add], [subtract] or
    [multiply] is well-formed. *)
Theorem arithmetic_keeps_well_formed (w : world) (self other : loc) :
  self ∈ dom (heap w) → other ∈ dom (heap w) →
  well_formed (heap w !!! self) → well_formed (heap w !!! other) →
  (∀ r w', add self other w = (Return r, w') → well_formed (heap w' !!! r))
  ∧ (∀ r w', subtract self other w = (Return r, w') →
       well_formed (heap w' !!! r))
  ∧ (∀ r w', multiply self other w = (Return r, w') →
       well_formed (heap w' !!! r)).
Proof.
  intros Hs Ho HA HB.
  rewrite add_run, subtract_run, multiply_run by done.
  split; [|split]; intros r w'; case_decide as Hd; intros [= <- <-];
    rewrite allocated_result.
  - apply combine_well_formed; try done; lia.
  - apply combine_well_formed; try done; lia.
  - by apply product_well_formed.
Qed.

Lemma matrix_B_well_formed : well_formed (heap scenario !!! 2%positive).
Proof.
  change (heap scenario !!! 2%positive) with matrix_B.
  split; [done|]. split; [done|]. intros i j v H.
  cbn [matrix_B elements Rows Colu] in *.
  apply lookup_insert_Some in H as [[[= <- <-] <-]|[_ H]]; [lia|].
  apply lookup_singleton_Some in H as [[= <- <-] <-]. lia.
Defined.

Lemma arithmetic_keeps_well_formed_witness :
  (1%positive ∈ dom (heap scenario) ∧ 2%positive ∈ dom (heap scenario)
   ∧ well_formed (heap scenario !!! 1%positive)
   ∧ well_formed (heap scenario !!! 2%positive))
  ∧ (∀ r w', add 1 2 scenario = (Return r, w') → well_formed (heap w' !!! r))
  ∧ (∀ r w', subtract 1 2 scenario = (Return r, w') →
       well_formed (heap w' !!! r))
  ∧ (∀ r w', multiply 1 2 scenario = (Return r, w') →
       well_formed (heap w' !!! r)).
Proof.
  split.
  - split; [apply scenario_live|]. split; [apply scenario_live|].
    split; [apply matrix_A_well_formed | apply matrix_B_well_formed].
  - apply (arithmetic_keeps_well_formed scenario 1 2);
      [apply scenario_live | apply scenario_live
      | apply matrix_A_well_formed | apply matrix_B_well_formed].
Defined.

(** ** Reading a file *)

Lemma apply_line_accepted m line : is_Some (apply_line m line) ↔ accepted line.
Proof.
  unfold apply_line, accepted, blank. split.
  - intros [m' H]. destruct (Py.strip line) as [|c s] eqn:E; [by left|].
    right. unfold triple_of in H.
    destruct (Py.re_match_triple (c :: s)); [by eauto | done].
  - intros [H|H].
    + rewrite H. by eauto.
    + apply triple_of_matched in H as [[[row col] value] Ht]. rewrite Ht.
      destruct (Py.strip line); by eauto.
Qed.

Lemma apply_lines_flag lines m :
  (apply_lines lines m).1 = true ↔ Forall accepted lines.
Proof.
  revert m. induction lines as [|l lines IH]; intros m; [done|].
  cbn [apply_lines]. pose proof (apply_line_accepted m l) as Hl.
  destruct (apply_line m l) as [m'|].
  - rewrite IH, Forall_cons. split; [|tauto]. intros H. split; [|done].
    apply Hl. by eauto.
  - split; [done|]. intros [H _]%Forall_cons. apply Hl in H as [? ?]. done.
Qed.

Lemma set_entries_last_triple m triples k :
  elements (set_entries m triples) !! k
  = match last_triple triples k with
    | Some v => stored v
    | None => elements m !! k
    end.
Proof.
  unfold set_entries. revert m.
  induction triples as [|[[i j] v] ts IH]; intros m; [done|].
  cbn [fold_left last_triple fst snd]. rewrite IH.
  destruct (last_triple ts k) as [x|]; [done|].
  rewrite set_entry_lookup.
  destruct (decide ((i, j) = k)) as [<-|Hne].
  - by rewrite decide_True.
  - by rewrite decide_False.
Qed.



(** X13. After a successful [read_from_file] the entry at a coordinate is
    decided by the last matched line that names the coordinate: its value
    is stored if it is not zero, nothing is stored if it is zero or if no
    line names the coordinate.  Earlier lines for the same coordinate and
    the entries the object had before the call have no effect. *)
Theorem read_from_file_last_line_wins (w w' : world) (self : loc)
    (path : string) (t : Py.text) :
  disk w !! path = Some t →
  read_from_file self path w = (Return (), w') →
  ∀ k, elements (heap w' !!! self) !! k
       = match last_triple (matched_triples (drop 2 (Py.readlines t))) k with
         | Some v => stored v
         | None => None
         end.
Proof.
  intros Ht H k. rewrite read_from_file_run, Ht in H.
  destruct (parse_into _ _).1 eqn:E; [|done]. injection H as <-.
  cbn [heap]. rewrite lookup_total_insert_eq.
  unfold parse_into in *. cbv zeta in *.
  destruct (header_value (Py.readlines t) 0) as [R|]; [|done].
  destruct (header_value (Py.readlines t) 1) as [C|]; [|done].
  apply apply_lines_flag in E.
  rewrite (apply_lines_matched _ _ E). cbn [snd].
  rewrite set_entries_last_triple. cbn [elements].
  by rewrite lookup_empty.
Qed.

Lemma read_from_file_last_line_wins_witness :
  (disk reading_world !! "T" = Some text_twice
   ∧ read_from_file 1 "T" reading_world
     = (Return (), (read_from_file 1 "T" reading_world).2))
  ∧ ∀ k, elements (heap (read_from_file 1 "T" reading_world).2 !!! 1%positive) !! k
         = match last_triple (matched_triples (drop 2 (Py.readlines text_twice))) k with
           | Some v => stored v
           | None => None
           end.
Proof.
  assert (H : read_from_file 1 "T" reading_world
              = (Return (), (read_from_file 1 "T" reading_world).2)).
  { vm_compute. reflexivity. }
  split; [split; [reflexivity | exact H]|].
  apply (read_from_file_last_line_wins reading_world _ 1 "T" text_twice eq_refl H).
Defined.

(** X14. When the file cannot be read or its first line has no integer
    after an [=], [read_from_file] raises the format error and leaves the
    object with its old rows and columns and without entries.  When only
    the second line fails, the object has the new row count, its old column
    count and no entries. *)
Theorem read_from_file_header_failure (w : world) (self : loc) (path : string) :
  ((disk w !! path = None
    ∨ ∃ t, disk w !! path = Some t ∧ header_value (Py.readlines t) 0 = None) →
   read_from_file self path w
   = (Raise wrong_format,
      {| heap := <[self := {| Rows := Rows (heap w !!! self);
                              Colu := Colu (heap w !!! self);
                              elements := ∅ |}]> (heap w);
         disk := disk w |}))
  ∧ (∀ t R,
       disk w !! path = Some t →
       header_value (Py.readlines t) 0 = Some R →
       header_value (Py.readlines t) 1 = None →
       read_from_file self path w
       = (Raise wrong_format,
          {| heap := <[self := {| Rows := R;
                                  Colu := Colu (heap w !!! self);
                                  elements := ∅ |}]> (heap w);
             disk := disk w |})).
Proof.
  split.
  - intros [H|(t & Ht & H0)]; rewrite read_from_file_run; unfold parse_into.
    + by rewrite H.
    + rewrite Ht. cbv zeta. by rewrite H0.
  - intros t R Ht H0 H1. rewrite read_from_file_run. unfold parse_into.
    rewrite Ht. cbv zeta. by rewrite H0, H1.
Qed.

Lemma read_from_file_header_failure_witness :
  (disk reading_world !! "none" = None
   ∧ disk reading_world !! "H" = Some text_bad_cols
   ∧ header_value (Py.readlines text_bad_cols) 0 = Some 5
   ∧ header_value (Py.readlines text_bad_cols) 1 = None)
  ∧ read_from_file 1 "none" reading_world
    = (Raise wrong_format,
       {| heap := <[1%positive := {| Rows := 2; Colu := 2; elements := ∅ |}]>
                    (heap reading_world);
          disk := disk reading_world |})
  ∧ read_from_file 1 "H" reading_world
    = (Raise wrong_format,
       {| heap := <[1%positive := {| Rows := 5; Colu := 2; elements := ∅ |}]>
                    (heap reading_world);
          disk := disk reading_world |}).
Proof.
  split; [repeat split; reflexivity|].
  pose proof (read_from_file_header_failure reading_world 1 "none") as [H1 _].
  pose proof (read_from_file_header_failure reading_world 1 "H") as [_ H2].
  split.
  - apply H1. left. reflexivity.
  - apply (H2 text_bad_cols 5); reflexivity.
Defined.



(** ** The shape of an accepted line *)

Lemma drop_while_rev_suffix p u s c :
  p c = false →
  ∃ u', Py.drop_while p (u ++ c :: s) = u' ++ c :: s.
Proof.
  intros Hc. induction u as [|x u IH].
  - exists []. simpl. by rewrite Hc.
  - simpl. destruct (p x); [done|]. by exists (x :: u).
Qed.

(** [strip] keeps a text that starts and ends outside the white space, and
    whatever follows it up to the trailing white space; white space before
    it goes. *)
Lemma strip_keeps_solid lead c s c' rest :
  Forall (λ x, Py.is_space x = true) lead →
  Py.is_space c = false → Py.is_space c' = false →
  ∃ rest', Py.strip (lead ++ (c :: s ++ [c']) ++ rest) = (c :: s ++ [c']) ++ rest'.
Proof.
  intros Hlead Hc Hc'. unfold Py.strip, Py.strip_by.
  rewrite <- app_comm_cons, drop_while_app by done.
  rewrite app_comm_cons, rev_app_distr, app_comm_cons, rev_unit.
  destruct (drop_while_rev_suffix Py.is_space (rev rest) (rev (c :: s)) c' Hc')
    as [u' ->].
  exists (rev u'). rewrite rev_app_distr. f_equal.
  change (c' :: rev (c :: s)) with (rev [c'] ++ rev (c :: s)).
  by rewrite <- rev_app_distr, rev_involutive.
Qed.

Lemma of_uint_nonneg u : 0 ≤ Z.of_uint u.
Proof. unfold Z.of_uint. lia. Qed.

Lemma int_digits_nonneg g :
  g ≠ [] → Forall (λ c, Py.is_digit c = true) g →
  ∃ z, Py.int g = Some z ∧ 0 ≤ z.
Proof.
  intros Hne Hd. destruct (uint_of_digits_Some g Hd) as [u Hu].
  exists (Z.of_uint u). split; [by apply int_of_digits | apply of_uint_nonneg].
Qed.

Lemma int_signed_digits sign g :
  g ≠ [] → Forall (λ c, Py.is_digit c = true) g →
  sign = [] ∨ sign = ["-"%char] → is_Some (Py.int (sign ++ g)).
Proof.
  intros Hne Hd Hs. destruct (uint_of_digits_Some g Hd) as [u Hu].
  destruct Hs as [-> | ->].
  - rewrite app_nil_l, (int_of_digits g u) by done. by eauto.
  - change (["-"%char] ++ g) with ("-"%char :: g).
    rewrite (int_of_minus_digits g u) by done. by eauto.
Qed.

(** X16. A body line is read as a triple when, after any white space, it
    has an opening parenthesis, digits, a comma, any white space, digits, a
    comma, any white space, an optional minus sign, digits and a closing
    parenthesis; whatever follows the closing parenthesis on the line is
    ignored.  The line then acts as one call of the setter, with a row and
    a column that are not negative. *)
Theorem read_line_accepts_padded_triples (w : world) (self : loc)
    (lead g1 ws1 g2 ws2 sign g3 rest : Py.text) :
  Forall (λ c, Py.is_space c = true) lead →
  g1 ≠ [] → Forall (λ c, Py.is_digit c = true) g1 →
  Forall (λ c, Py.is_space c = true) ws1 →
  g2 ≠ [] → Forall (λ c, Py.is_digit c = true) g2 →
  Forall (λ c, Py.is_space c = true) ws2 →
  sign = [] ∨ sign = ["-"%char] →
  g3 ≠ [] → Forall (λ c, Py.is_digit c = true) g3 →
  ∃ row col value,
    Py.int g1 = Some row ∧ Py.int g2 = Some col
    ∧ Py.int (sign ++ g3) = Some value
    ∧ 0 ≤ row ∧ 0 ≤ col
    ∧ read_line self
        (lead ++ ("("%char :: (g1 ++ ","%char :: ws1 ++ g2 ++ ","%char :: ws2
                              ++ sign ++ g3) ++ [")"%char]) ++ rest) w
      = setElement self row col value w.
Proof.
  intros Hlead N1 D1 W1 N2 D2 W2 Hs N3 D3.
  destruct (int_digits_nonneg g1 N1 D1) as (row & I1 & Hrow).
  destruct (int_digits_nonneg g2 N2 D2) as (col & I2 & Hcol).
  destruct (int_signed_digits sign g3 N3 D3 Hs) as [value I3].
  exists row, col, value. repeat (split; [done|]).
  destruct (strip_keeps_solid lead "("%char
              (g1 ++ ","%char :: ws1 ++ g2 ++ ","%char :: ws2 ++ sign ++ g3)
              ")"%char rest Hlead eq_refl eq_refl) as [rest' Hstrip].
  unfold read_line. rewrite Hstrip.
  assert (Hshape : ("("%char :: (g1 ++ ","%char :: ws1 ++ g2 ++ ","%char :: ws2
                                 ++ sign ++ g3) ++ [")"%char]) ++ rest'
                   = "("%char :: g1 ++ ","%char :: ws1 ++ g2 ++ ","%char :: ws2
                       ++ sign ++ g3 ++ ")"%char :: rest').
  { repeat (rewrite <- ?app_comm_cons, <- ?app_assoc). done. }
  rewrite Hshape, re_match_triple_complete by done.
  unfold py_int. rewrite I1, I2, I3. reflexivity.
Qed.

Lemma read_line_accepts_padded_triples_witness :
  ∃ row col value,
    Py.int (Py.chars "1") = Some row ∧ Py.int (Py.chars "0") = Some col
    ∧ Py.int (["-"%char] ++ Py.chars "25") = Some value
    ∧ 0 ≤ row ∧ 0 ≤ col
    ∧ read_line 1
        (Py.chars "  " ++ ("("%char :: (Py.chars "1" ++ ","%char :: [] ++ Py.chars "0"
                              ++ ","%char :: Py.chars "   "
                              ++ ["-"%char] ++ Py.chars "25") ++ [")"%char])
         ++ Py.chars " # note") scenario
      = setElement 1 row col value scenario.
Proof.
  apply (read_line_accepts_padded_triples scenario 1 (Py.chars "  ")
           (Py.chars "1") [] (Py.chars "0") (Py.chars "   ") ["-"%char]
           (Py.chars "25") (Py.chars " # note"));
    try discriminate; by repeat constructor.
Defined.

(** ** Serialising *)

Lemma length_terminated output : length (terminated output) = length output.
Proof.
  induction output as [|l ls IH]; [done|].
  destruct ls as [|l' ls']; [done|].
  change (terminated (l :: l' :: ls')) with ((l ++ [Py.LF]) :: terminated (l' :: ls')).
  cbn [length]. by rewrite IH.
Qed.

Lemma str_entries_lines es :
  Py.keep_lines (str_entries es) = terminated (entry_line <$> es).
Proof.
  unfold str_entries. apply keep_lines_join.
  apply Forall_fmap, Forall_forall. intros e _. split.
  - apply entry_line_nonempty.
  - eapply Forall_impl; [apply entry_line_plain | apply plain_not_LF].
Qed.

Lemma entry_line_last e : last (entry_line e) = Some ")"%char.
Proof.
  destruct e as [[i j] v]. rewrite entry_line_shape.
  assert (E : "("%char :: Py.str i ++ ","%char :: " "%char :: Py.str j
                ++ ","%char :: " "%char :: Py.str v ++ [")"%char]
              = ("("%char :: Py.str i ++ ","%char :: " "%char :: Py.str j
                   ++ ","%char :: " "%char :: Py.str v) ++ [")"%char]).
  { repeat (rewrite <- ?app_comm_cons, <- ?app_assoc). done. }
  rewrite E. apply last_snoc.
Qed.

Lemma join_lines_last (output : list Py.text) (c : ascii) :
  output ≠ [] → Forall (λ l, last l = Some c) output →
  last (join_lines output) = Some c.
Proof.
  intros Hne H. induction H as [|l ls Hl Hls IH]; [done|].
  destruct ls as [|l' ls']; [done|].
  change (join_lines (l :: l' :: ls')) with (l ++ Py.LF :: join_lines (l' :: ls')).
  rewrite last_app, last_cons, IH by done. done.
Qed.

(** X17. [__str__] returns one line per stored entry and changes nothing;
    the text is empty exactly when the matrix stores nothing, and a text
    that is not empty ends with the closing parenthesis of its last line,
    not with a line feed. *)
Theorem str_one_line_per_entry (w : world) (self : loc) :
  ∃ s,
    __str__ self w = (Return s, w)
    ∧ length (Py.keep_lines s) = size (elements (heap w !!! self))
    ∧ (s = [] ↔ elements (heap w !!! self) = ∅)
    ∧ (s ≠ [] → last s = Some ")"%char).
Proof.
  exists (str_matrix (heap w !!! self)). split; [done|].
  unfold str_matrix. rewrite str_entries_lines, length_terminated, length_fmap.
  split; [apply length_map_to_list|].
  set (d := elements (heap w !!! self)).
  assert (Hlast : map_to_list d ≠ [] →
                  last (str_entries (map_to_list d)) = Some ")"%char).
  { intros Hne. apply join_lines_last.
    - by destruct (map_to_list d).
    - apply Forall_fmap, Forall_forall. intros e _. apply entry_line_last. }
  split; [split|].
  - intros Hs. apply map_to_list_empty_iff.
    destruct (map_to_list d) as [|e es] eqn:E; [done|]. exfalso.
    rewrite Hs in Hlast. by specialize (Hlast ltac:(done)).
  - intros ->. by rewrite map_to_list_empty.
  - intros Hs. apply Hlast. intros E. by rewrite E in Hs.
Qed.

(** ** Running [process_file] *)

Lemma parse_into_flag m file : (parse_into m file).1 = parses file.
Proof.
  unfold parses, parse_into. destruct file as [t|]; [|done]. cbv zeta.
  destruct (header_value _ 0) as [r|]; [|done].
  destruct (header_value _ 1) as [c|]; done.
Qed.

Lemma parse_into_parsed m file :
  parses file = true → (parse_into m file).2 = parsed file.
Proof.
  unfold parses, parsed, parse_into. destruct file as [t|]; [|done]. cbv zeta.
  destruct (header_value _ 0) as [r|]; [|done].
  destruct (header_value _ 1) as [c|]; done.
Qed.

Lemma after_parsing_facts (w : world) (self : loc) (A B : SparseMatrix) :
  self ∈ dom (heap (after_parsing w self A B))
  ∧ fresh (dom (<[self := A]> (heap w))) ∈ dom (heap (after_parsing w self A B))
  ∧ heap (after_parsing w self A B) !!! self = A
  ∧ heap (after_parsing w self A B) !!! fresh (dom (<[self := A]> (heap w))) = B.
Proof.
  unfold after_parsing. cbn [heap].
  split; [rewrite !dom_insert; set_solver|].
  split; [rewrite dom_insert; set_solver|].
  split; [|apply lookup_total_insert_eq].
  rewrite lookup_total_insert_ne; [apply lookup_total_insert_eq|].
  apply fresh_loc_ne. rewrite dom_insert. set_solver.
Qed.

Lemma process_file_run self input output operation other w :
  process_file self input output operation other w
  = if parses (disk w !! input) then
      let A := parsed (disk w !! input) in
      let B := parsed (disk w !! other) in
      let w3 := after_parsing w self A
                  (parse_into init_matrix (disk w !! other)).2 in
      if parses (disk w !! other) then
        match pipeline_result operation A B with
        | inl e => (Raise e, w3)
        | inr R =>
            (Return (),
             {| heap := heap (allocated (after_parsing w self A B) R);
                disk := <[output := serialize R]> (disk w) |})
        end
      else (Raise wrong_format, w3)
    else
      (Raise wrong_format,
       {| heap := <[self := (parse_into (heap w !!! self) (disk w !! input)).2]>
                    (heap w);
          disk := disk w |}).
Proof.
  unfold process_file. rewrite run_bind, read_from_file_run, parse_into_flag.
  destruct (parses (disk w !! input)) eqn:EA; [|done].
  rewrite parse_into_parsed by done. cbv beta iota zeta.
  set (A := parsed (disk w !! input)).
  rewrite run_bind, run_new. cbv beta iota. cbn [heap disk].
  rewrite run_bind, read_from_file_run, parse_into_flag. cbn [heap disk].
  rewrite lookup_total_insert_eq, insert_insert_eq.
  fold (after_parsing w self A (parse_into init_matrix (disk w !! other)).2).
  destruct (parses (disk w !! other)) eqn:EB; [|done].
  rewrite parse_into_parsed by done. cbv beta iota.
  set (B := parsed (disk w !! other)).
  destruct (after_parsing_facts w self A B) as (L1 & L2 & E1 & E2).
  rewrite run_bind. unfold pipeline_result.
  assert (Hw : ∀ R, write_result (fresh (dom (heap (after_parsing w self A B))))
                      output (allocated (after_parsing w self A B) R)
                    = (Return (),
                       {| heap := heap (allocated (after_parsing w self A B) R);
                          disk := <[output := serialize R]> (disk w) |})).
  { intros R. unfold write_result, __str__. do 3 run_step.
    unfold write_text. by rewrite allocated_result. }
  destruct (decide (operation = "add")) as [_|_].
  { rewrite add_run, E1, E2 by done. case_decide; [done|]. apply Hw. }
  destruct (decide (operation = "subtract")) as [_|_].
  { rewrite subtract_run, E1, E2 by done. case_decide; [done|]. apply Hw. }
  destruct (decide (operation = "multiply")) as [_|_].
  { rewrite multiply_run, E1, E2 by done. case_decide; [done|]. apply Hw. }
  done.
Qed.

(** ** What a file can store *)

Lemma triple_of_nonneg line row col value :
  triple_of line = Some (row, col, value) → 0 ≤ row ∧ 0 ≤ col.
Proof.
  unfold triple_of.
  destruct (Py.re_match_triple line) as [[[g1 g2] g3]|] eqn:E; [|done].
  apply re_match_triple_sound in E
    as (ws1 & ws2 & sign & g3' & rest & _ & _ & [N1 D1] & [N2 D2] & _).
  destruct (int_digits_nonneg g1 N1 D1) as (r & -> & Hr).
  destruct (int_digits_nonneg g2 N2 D2) as (c & -> & Hc).
  destruct (Py.int g3); [|done]. by intros [= <- <- _].
Qed.

Lemma set_entry_printable m i j v :
  printable m → 0 ≤ i → 0 ≤ j → printable (set_entry m i j v).
Proof.
  intros Hm Hi Hj i' j' x. rewrite set_entry_lookup.
  case_decide as Hk.
  - injection Hk as -> ->. intros Hx%stored_nonzero. done.
  - apply Hm.
Qed.

Lemma apply_lines_printable lines m :
  printable m → printable (apply_lines lines m).2.
Proof.
  revert m. induction lines as [|l lines IH]; intros m Hm; [done|].
  cbn [apply_lines]. unfold apply_line.
  destruct (Py.strip l) as [|c s]; [by apply IH|].
  destruct (triple_of (c :: s)) as [[[row col] value]|] eqn:E; [|done].
  apply triple_of_nonneg in E as [Hr Hc]. by apply IH, set_entry_printable.
Qed.

Lemma printable_empty r c : printable {| Rows := r; Colu := c; elements := ∅ |}.
Proof. intros i j v. cbn [elements]. by rewrite lookup_empty. Qed.

Lemma parse_into_printable m file : printable (parse_into m file).2.
Proof.
  unfold parse_into. destruct file as [t|]; [|apply printable_empty].
  cbv zeta. destruct (header_value _ 0) as [r|]; [|apply printable_empty].
  destruct (header_value _ 1) as [c|]; [|apply printable_empty].
  apply apply_lines_printable, printable_empty.
Qed.




(** X18. [read_from_file] never stores a negative coordinate nor a zero
    value: whatever the file holds and whether the call returns or raises,
    the rows and columns of the entries of the object afterwards are not
    negative and their values are not zero. *)
Theorem read_from_file_stores_printable (w : world) (self : loc)
    (path : string) :
  ∃ o w',
    read_from_file self path w = (o, w')
    ∧ ∀ i j v, elements (heap w' !!! self) !! (i, j) = Some v →
        0 ≤ i ∧ 0 ≤ j ∧ v ≠ 0.
Proof.
  rewrite read_from_file_run. eexists _, _. split; [done|]. cbn [heap].
  rewrite lookup_total_insert_eq. apply parse_into_printable.
Qed.

(** ** The pipeline *)



(** X20. An operation name other than [add], [subtract] and [multiply]
    makes [process_file] raise, but only after both files have been parsed:
    the error is the one for an invalid operation when both files parse and
    the format error when one of them does not.  No file is written, and
    the object [self] has been overwritten by the parse of the first
    file. *)
Theorem process_file_rejects_other_operations (w : world) (self : loc)
    (input output operation other : string) :
  operation ≠ "add" → operation ≠ "subtract" → operation ≠ "multiply" →
  ∃ e w',
    process_file self input output operation other w = (Raise e, w')
    ∧ disk w' = disk w
    ∧ (parses (disk w !! input) = true → parses (disk w !! other) = true →
       e = ValueError "Invalid operation"
       ∧ heap w' !!! self = parsed (disk w !! input))
    ∧ (parses (disk w !! input) = false ∨ parses (disk w !! other) = false →
       e = wrong_format).
Proof.
  intros H1 H2 H3. rewrite process_file_run.
  destruct (parses (disk w !! input)) eqn:EA.
  - cbv zeta. destruct (parses (disk w !! other)) eqn:EB.
    + unfold pipeline_result. rewrite !decide_False by done.
      eexists _, _. split; [done|]. split; [done|]. split.
      * intros _ _. split; [done|].
        rewrite parse_into_parsed by done. apply after_parsing_facts.
      * intros [?|?]; done.
    + eexists _, _. split; [done|]. split; [done|]. split; [done|]. done.
  - eexists _, _. split; [done|]. split; [done|]. split; [done|]. done.
Qed.

Lemma process_file_rejects_other_operations_witness :
  ("divide" ≠ "add" ∧ "divide" ≠ "subtract" ∧ "divide" ≠ "multiply")
  ∧ ∃ e w',
      process_file 1 "A" "out" "divide" "B" scenario = (Raise e, w')
      ∧ disk w' = disk scenario
      ∧ (parses (disk scenario !! "A") = true →
         parses (disk scenario !! "B") = true →
         e = ValueError "Invalid operation"
         ∧ heap w' !!! 1%positive = parsed (disk scenario !! "A"))
      ∧ (parses (disk scenario !! "A") = false
         ∨ parses (disk scenario !! "B") = false →
         e = wrong_format).
Proof.
  split; [repeat split; discriminate|].
  apply (process_file_rejects_other_operations scenario 1 "A" "out" "divide" "B");
    discriminate.
Defined.










(** ** The batch entry point *)

Lemma process_file_outcome self input output operation other w :
  ∃ w',
    (process_file self input output operation other w = (Return (), w')
     ∧ ∃ R, disk w' = <[output := serialize R]> (disk w))
    ∨ (∃ msg, process_file self input output operation other w
              = (Raise (ValueError msg), w')
       ∧ disk w' = disk w).
Proof.
  rewrite process_file_run.
  destruct (parses (disk w !! input)); cbv zeta;
    [|eexists; right; eexists; split; reflexivity].
  destruct (parses (disk w !! other));
    [|eexists; right; eexists; split; reflexivity].
  unfold pipeline_result.
  repeat case_decide;
    try (eexists; right; eexists; split; reflexivity);
    eexists; left; (split; [reflexivity|]); eexists; reflexivity.
Qed.

Lemma attempt_outcome processor m1 out op m2 written failed w :
  ∃ line w',
    attempt processor m1 out op m2 written failed w = (Return [line], w')
    ∧ (disk w' = disk w
       ∨ ∃ R, disk w' = <[file_name out := serialize R]> (disk w)).
Proof.
  unfold attempt.
  destruct (process_file_outcome processor (file_name m1) (file_name out)
              (file_name op) (file_name m2) w)
    as (w' & [(E & R & HR)|(msg & E & HR)]); rewrite E.
  - eexists _, _. split; [reflexivity|]. right. by exists R.
  - eexists _, _. split; [reflexivity|]. by left.
Qed.

Lemma batch_step_outcome processor filename w :
  ∃ lines w',
    batch_step processor filename w = (Return lines, w')
    ∧ (length lines ≤ 3)%nat
    ∧ ∀ path, path ∉ output_paths filename → disk w' !! path = disk w !! path.
Proof.
  unfold batch_step.
  destruct (ends_with (Py.chars "_1.txt") filename);
    [|eexists _, _; split; [reflexivity|]; split; [cbn; lia | done]].
  rewrite run_bind. unfold isfile at 1. cbv beta iota.
  destruct (bool_decide (is_Some (disk w !! file_name (matrix2_path filename))));
    cbn [negb];
    [|eexists _, _; split; [reflexivity|]; split; [cbn; lia | done]].
  set (failed_add := Py.chars "Failed to add matrices for " ++ _).
  set (failed_sub := Py.chars "Failed to subtract matrices for " ++ _).
  set (failed_mul := Py.chars "Failed to multiply matrices for " ++ _).
  rewrite run_bind.
  destruct (attempt_outcome processor (matrix1_path filename)
              (output_path filename (Py.chars "_add_results.txt"))
              (Py.chars "add") (matrix2_path filename)
              (Py.chars "Addition result written to ") failed_add w)
    as (l1 & w1 & E1 & D1).
  rewrite E1, run_bind.
  destruct (attempt_outcome processor (matrix1_path filename)
              (output_path filename (Py.chars "_subtract_results.txt"))
              (Py.chars "subtract") (matrix2_path filename)
              (Py.chars "Subtraction result written to ") failed_sub w1)
    as (l2 & w2 & E2 & D2).
  rewrite E2, run_bind.
  destruct (attempt_outcome processor (matrix1_path filename)
              (output_path filename (Py.chars "_multiply_results.txt"))
              (Py.chars "multiply") (matrix2_path filename)
              (Py.chars "Multiplication result written to ") failed_mul w2)
    as (l3 & w3 & E3 & D3).
  rewrite E3. eexists _, _. split; [reflexivity|]. split; [cbn; lia|].
  intros path Hp. unfold output_paths in Hp.
  rewrite !not_elem_of_cons in Hp. destruct Hp as (P1 & P2 & P3 & _).
  assert (disk w1 !! path = disk w !! path) as <-.
  { destruct D1 as [->|[R ->]]; [done|]. by rewrite lookup_insert_ne. }
  assert (disk w2 !! path = disk w1 !! path) as <-.
  { destruct D2 as [->|[R ->]]; [done|]. by rewrite lookup_insert_ne. }
  destruct D3 as [->|[R ->]]; [done|]. by rewrite lookup_insert_ne.
Qed.

Lemma batch_outcome processor listing w :
  ∃ lines w',
    batch processor listing w = (Return lines, w')
    ∧ (length lines ≤ 3 * length listing)%nat
    ∧ ∀ path,
        (∀ filename, filename ∈ listing → path ∉ output_paths filename) →
        disk w' !! path = disk w !! path.
Proof.
  revert w. induction listing as [|filename rest IH]; intros w.
  { eexists _, _. split; [reflexivity|]. split; [cbn; lia | done]. }
  cbn [batch]. rewrite run_bind.
  destruct (batch_step_outcome processor filename w) as (l1 & w1 & E1 & N1 & D1).
  rewrite E1, run_bind.
  destruct (IH w1) as (l2 & w2 & E2 & N2 & D2).
  rewrite E2. eexists _, _. split; [reflexivity|].
  split; [rewrite length_app; cbn [length]; lia|].
  intros path Hp. rewrite D2, D1; [done| |].
  - apply Hp. left.
  - intros f Hf. apply Hp. by right.
Qed.

Lemma main_outcome listing w :
  ∃ lines w',
    main listing w = (Return lines, w')
    ∧ (length lines ≤ 3 * length listing)%nat
    ∧ ∀ path,
        (∀ filename, filename ∈ listing → path ∉ output_paths filename) →
        disk w' !! path = disk w !! path.
Proof.
  unfold main. rewrite run_bind, run_new. cbv beta iota.
  destruct (batch_outcome (fresh (dom (heap w))) listing
              {| heap := <[fresh (dom (heap w)) := init_matrix]> (heap w);
                 disk := disk w |})
    as (lines & w' & E & N & D).
  exists lines, w'. done.
Qed.

(** X23. The batch loop never stops on an error of the pipeline: every
    error [process_file] raises is a [ValueError], which the loop catches
    and reports, so the run goes through the whole directory listing,
    whatever the files hold, and prints at most three lines per entry. (The
    writes of result files are taken to succeed.) *)
Theorem main_goes_through_the_listing (listing : list Py.text) (w : world) :
  ∃ lines w',
    main listing w = (Return lines, w')
    ∧ (length lines ≤ 3 * length listing)%nat.
Proof.
  destruct (main_outcome listing w) as (lines & w' & E & N & _).
  by exists lines, w'.
Qed.

Lemma file_name_inj p q : file_name p = file_name q → p = q.
Proof.
  intros E. apply (f_equal list_ascii_of_string) in E.
  unfold file_name in E. by rewrite !list_ascii_of_string_of_list_ascii in E.
Qed.


Lemma starts_with_slash b : "/"%char ∉ b → starts_with ["/"%char] b = false.
Proof.
  destruct b as [|a b]; [done|]. intros H. cbn [starts_with].
  rewrite andb_true_r. apply Ascii.eqb_neq. intros <-. apply H. left.
Qed.


Lemma path_join_output b :
  "/"%char ∉ b → path_join output_folder b = output_folder ++ "/"%char :: b.
Proof. intros H. unfold path_join. by rewrite starts_with_slash. Qed.

Lemma replace_from_elem old s k c : c ∈ replace_from old [] s k → c ∈ s.
Proof.
  revert k. induction s as [|a r IH]; intros k; cbn [replace_from]; [done|].
  destruct k as [|k].
  - destruct (starts_with old (a :: r)).
    + cbn [app]. intros H. right. by eapply IH.
    + intros [->|H]%elem_of_cons; [left|right]. by eapply IH.
  - intros H. right. by eapply IH.
Qed.

Lemma output_path_base filename suffix :
  "/"%char ∉ filename → "/"%char ∉ suffix →
  output_path filename suffix
  = output_folder ++ "/"%char
      :: (replace (Py.chars "_1.txt") [] filename ++ suffix).
Proof.
  intros Hf Hs. unfold output_path. apply path_join_output.
  rewrite elem_of_app. intros [H|H]; [|done].
  apply Hf. eapply (replace_from_elem (Py.chars "_1.txt") _ 0). exact H.
Qed.

Lemma input_output_ne x y :
  file_name (input_folder ++ x) ≠ file_name (output_folder ++ y).
Proof.
  intros E%file_name_inj.
  apply (f_equal (λ l, nth 48 l "000"%char)) in E. cbn in E. discriminate.
Qed.

Lemma elem_of_output_paths filename path :
  "/"%char ∉ filename → path ∈ output_paths filename →
  ∃ q, path = file_name (output_folder ++ "/"%char :: q).
Proof.
  intros Hf. unfold output_paths. rewrite !elem_of_cons, elem_of_nil.
  intros [->|[->|[->|[]]]]; (rewrite output_path_base; [by eexists | done |]);
    apply (bool_decide_unpack _); by vm_compute.
Qed.


Lemma sample_listing_base_names : base_names sample_listing.
Proof.
  intros filename. unfold sample_listing.
  rewrite !elem_of_cons, elem_of_nil.
  intros [->|[->|[->|[]]]]; apply (bool_decide_unpack _); by vm_compute.
Qed.

(** X24. The batch run writes result files only: for a listing of base
    names, every file whose path is not directly under the output folder
    is the same after the run as before it, among them every file of the
    input folder. *)
Theorem main_writes_only_result_files (listing : list Py.text) (w : world) :
  base_names listing →
  ∃ lines w',
    main listing w = (Return lines, w')
    ∧ (∀ path,
         (∀ q, path ≠ file_name (output_folder ++ "/"%char :: q)) →
         disk w' !! path = disk w !! path)
    ∧ (∀ name,
         disk w' !! file_name (input_folder ++ "/"%char :: name)
         = disk w !! file_name (input_folder ++ "/"%char :: name)).
Proof.
  intros Hbase.
  destruct (main_outcome listing w) as (lines & w' & E & _ & D).
  exists lines, w'. split; [done|].
  assert (∀ path,
            (∀ q, path ≠ file_name (output_folder ++ "/"%char :: q)) →
            disk w' !! path = disk w !! path) as Hout.
  { intros path Hp. apply D. intros filename Hf Hin.
    destruct (elem_of_output_paths filename path (Hbase _ Hf) Hin) as [q ->].
    by apply (Hp q). }
  split; [done|].
  intros name. apply Hout. intros q. apply input_output_ne.
Qed.

Lemma main_writes_only_result_files_witness :
  base_names sample_listing
  ∧ ∃ lines w',
      main sample_listing sample_folder = (Return lines, w')
      ∧ (∀ path,
           (∀ q, path ≠ file_name (output_folder ++ "/"%char :: q)) →
           disk w' !! path = disk sample_folder !! path)
      ∧ (∀ name,
           disk w' !! file_name (input_folder ++ "/"%char :: name)
           = disk sample_folder !! file_name (input_folder ++ "/"%char :: name)).
Proof.
  split; [apply sample_listing_base_names|].
  apply (main_writes_only_result_files sample_listing sample_folder
           sample_listing_base_names).
Defined.










